(** * gostore: the RESP codec, the command handlers and the append-only file

    A shallow embedding of [resp.go], [handler.go], [aof.go] and [main.go].

    - A Go [string] is a [string]; a Go [[]byte] is a [list ascii]; the
      conversions [string(b)] and [[]byte(s)] are [string_of_list_ascii] and
      [list_ascii_of_string].
    - A Go [int] is a [Z]; where a value can leave the 64-bit range the
      wrap-around is written out with [wrap_int].
    - A Go slice is a [list] (a nil slice and an empty slice are both [[]]).
    - The Go maps [SETs] and [HSETs] are [gmap]s.
    - Functions of type [(T, error)] return a pair whose second component is
      an [option error] ([None] is Go's [nil]).
    - A run-time panic is the result [Panic]. *)

From Stdlib Require Import ZArith Ascii String List Lia.
From stdpp Require Import base option list gmap strings fin_maps.

Local Open Scope Z_scope.

(** ** Bytes *)

Abbreviation byte := ascii (only parsing).
Abbreviation bytes := (list ascii) (only parsing).

Definition NUL : byte := "000"%char.
Definition CR : byte := "013"%char.
Definition LF : byte := "010"%char.

(** RESP type markers (the constants of [resp.go]). *)
Definition STRING : byte := "+"%char.
Definition ERROR : byte := "-"%char.
Definition INTEGER : byte := ":"%char.
Definition BULK : byte := "$"%char.
Definition ARRAY : byte := "*"%char.

(** [[]byte("...")] for literals. *)
Abbreviation B s := (list_ascii_of_string s) (only parsing).

(** Go's [int] on a 64-bit platform. *)
Definition wrap_int (z : Z) : Z := (z + 2 ^ 63) mod 2 ^ 64 - 2 ^ 63.

(** ** The [Value] struct *)

#[warnings="-register-all"]
Inductive Value : Type :=
  mkValue { typ : string; str : string; num : Z; bulk : string; array : list Value }.

(** [Value{}] *)
Definition Value0 : Value := mkValue "" "" 0 "" [].

(** ** Errors and results *)

Inductive error : Type :=
| EOF        (* io.EOF *)
| ErrSyntax  (* strconv.ErrSyntax wrapped in a NumError *)
| ErrRange.  (* strconv.ErrRange wrapped in a NumError *)

(** ** The buffered reader

    [rESP] holds a [*bufio.Reader], made by [bufio.NewReader] with the
    default buffer size.  Of the [bufio.Reader] we keep the bytes that are
    buffered and not yet consumed ([buf[r:w]] in Go) and what is left
    unread in the underlying [io.Reader].  The underlying reader is a
    source whose bytes are all available (a regular file, as in
    [Aof.Read]): its [Read(p)] delivers [min(len(p), remaining)] bytes, and
    [io.EOF] once nothing remains. *)

Record rESP : Type := mkrESP { buf : bytes; rd : bytes }.

(** [bufio]'s [defaultBufSize]. *)
Definition defaultBufSize : nat := 4096.

Definition newrESP (rd : bytes) : rESP := mkrESP [] rd.

(** The bytes still to be delivered, in order. *)
Definition pending (r : rESP) : bytes := buf r ++ rd r.

(** Outcome of running a reader operation. *)
Inductive res (A : Type) : Type :=
| Done (a : A) (r : rESP)
| Panic
| OutOfFuel.
Arguments Done {A} a r.
Arguments Panic {A}.
Arguments OutOfFuel {A}.

Definition M (A : Type) : Type := rESP -> res A.

Definition ret {A} (a : A) : M A := fun r => Done a r.
Definition bind {A B} (m : M A) (k : A -> M B) : M B :=
  fun r => match m r with
           | Done a r' => k a r'
           | Panic => Panic
           | OutOfFuel => OutOfFuel
           end.
Definition panic {A} : M A := fun _ => Panic.

Notation "'let*' p ':=' m 'in' k" := (bind m (fun p => k))
  (at level 10, p pattern, m at level 100, k at level 200, only parsing).

(** [bufio.Reader.fill] on an empty buffer: one [Read] of the underlying
    source into the whole buffer. *)
Definition fill (r : rESP) : rESP :=
  mkrESP (take defaultBufSize (rd r)) (drop defaultBufSize (rd r)).

(** [bufio.Reader.ReadByte] *)
Definition ReadByte : M (byte * option error) := fun r =>
  match buf r with
  | c :: b => Done (c, None) (mkrESP b (rd r))
  | [] =>
      match buf (fill r) with
      | c :: b => Done (c, None) (mkrESP b (rd (fill r)))
      | [] => Done (NUL, Some EOF) r
      end
  end.

(** [bufio.Reader.Read(p)].  In the words of the package: "The bytes are
    taken from at most one Read on the underlying Reader, hence n may be
    less than len(p)."  When bytes are buffered, those are copied and the
    source is not touched; on an empty buffer there is one read of the
    source, into [p] itself when [p] is at least as long as the buffer.
    The only caller, [readBulk], discards the count and the error; the
    result here is the contents of [p] afterwards. *)
Definition copy_into (p data : bytes) : bytes := data ++ drop (length data) p.

Definition bufio_Read (p : bytes) : M bytes := fun r =>
  match p with
  | [] => Done p r
  | _ :: _ =>
      match buf r with
      | [] =>
          match rd r with
          | [] => Done p r
          | _ :: _ =>
              if (defaultBufSize <=? length p)%nat then
                (* large read, empty buffer: read directly into p *)
                Done (copy_into p (take (length p) (rd r)))
                     (mkrESP [] (drop (length p) (rd r)))
              else
                (* one read into the buffer, then copy *)
                let r' := fill r in
                Done (copy_into p (take (length p) (buf r')))
                     (mkrESP (drop (length p) (buf r')) (rd r'))
          end
      | _ :: _ =>
          (* copy as much as we can *)
          Done (copy_into p (take (length p) (buf r)))
               (mkrESP (drop (length p) (buf r)) (rd r))
      end
  end.

(** ** [readLine] *)

(** The termination condition of the loop:
    [len(line) >= 2 && line[len(line)-2] == '\r']. *)
Definition line_ended (line : bytes) : bool :=
  (2 <=? length line)%nat && Ascii.eqb (nth (length line - 2) line NUL) CR.

Fixpoint readLine_loop (fuel : nat) (line : bytes) (n : Z)
  : M (bytes * Z * option error) :=
  match fuel with
  | O => fun _ => OutOfFuel
  | S fuel' =>
      let* (b, err) := ReadByte in
      match err with
      | Some e => ret ([], 0, Some e)
      | None =>
          let n := wrap_int (n + 1) in
          let line := line ++ [b] in
          if line_ended line
          then ret (take (length line - 2) line, n, None)
          else readLine_loop fuel' line n
      end
  end.

(** Every iteration consumes one byte or stops, so one more round than
    there are pending bytes is enough. *)
Definition readLine : M (bytes * Z * option error) := fun r =>
  readLine_loop (S (length (pending r))) [] 0 r.

(** ** [strconv.ParseInt(s, 10, 64)] and [strconv.Itoa] *)

Definition is_digit (c : byte) : bool :=
  (48 <=? nat_of_ascii c)%nat && (nat_of_ascii c <=? 57)%nat.

Definition digit_val (c : byte) : Z := Z.of_nat (nat_of_ascii c) - 48.

Definition maxUint64 : Z := 2 ^ 64 - 1.

(** The digit loop of [strconv.ParseUint] in base 10: a byte that is not a
    digit is a syntax error, a value above [maxUint64] a range error,
    whichever comes first. *)
Fixpoint parse_digits (n : Z) (s : string) : Z * option error :=
  match s with
  | EmptyString => (n, None)
  | String c s' =>
      if is_digit c then
        let n1 := n * 10 + digit_val c in
        if maxUint64 <? n1 then (maxUint64, Some ErrRange)
        else parse_digits n1 s'
      else (0, Some ErrSyntax)
  end.

Definition ParseUint (s : string) : Z * option error :=
  match s with
  | EmptyString => (0, Some ErrSyntax)
  | _ => parse_digits 0 s
  end.

Definition ParseInt (s : string) : Z * option error :=
  match s with
  | EmptyString => (0, Some ErrSyntax)
  | String c0 s1 =>
      let neg := Ascii.eqb c0 "-" in
      let s' := if Ascii.eqb c0 "+" || neg then s1 else s in
      let '(un, err) := ParseUint s' in
      match err with
      | Some ErrRange | None =>
          let cutoff := 2 ^ 63 in
          if negb neg && (cutoff <=? un) then (cutoff - 1, Some ErrRange)
          else if neg && (cutoff <? un) then (- cutoff, Some ErrRange)
          else (if neg then - un else un, None)
      | Some e => (0, Some e)
      end
  end.

Definition digit_char (d : Z) : byte := ascii_of_nat (Z.to_nat (48 + d)).

(** Decimal digits of a non-negative number, most significant first, put
    in front of [acc]; 20 rounds cover every 64-bit number. *)
Fixpoint format_digits (fuel : nat) (u : Z) (acc : string) : string :=
  match fuel with
  | O => acc
  | S fuel' =>
      if u <? 10 then String (digit_char u) acc
      else format_digits fuel' (u / 10) (String (digit_char (u mod 10)) acc)
  end.

Definition Itoa (i : Z) : string :=
  if i <? 0 then String "-" (format_digits 20 (- i) "")
  else format_digits 20 i "".

(** ** [readInteger] *)

Definition readInteger : M (Z * Z * option error) :=
  let* (line, n, err) := readLine in
  match err with
  | Some e => ret (0, 0, Some e)
  | None =>
      let '(i64, err) := ParseInt (string_of_list_ascii line) in
      match err with
      | Some e => ret (0, n, Some e)
      | None => ret (i64, n, None)
      end
  end.

(** ** [Read], [readArray] and [readBulk] *)

Definition set_array (v : Value) (a : list Value) : Value :=
  mkValue (typ v) (str v) (num v) (bulk v) a.
Definition set_bulk (v : Value) (b : string) : Value :=
  mkValue (typ v) (str v) (num v) b (array v).

(** The loop of [readArray]; [Read] is the decoder for one element.  Every
    element that is read consumes at least one byte, which bounds the
    number of rounds by [fuel]. *)
Fixpoint readArray_loop (Read : M (Value * option error))
  (fuel : nat) (i len : Z) (v : Value) : M (Value * option error) :=
  if i <? len then
    match fuel with
    | O => fun _ => OutOfFuel
    | S fuel' =>
        let* (val, err) := Read in
        match err with
        | Some e => ret (v, Some e)
        | None =>
            readArray_loop Read fuel' (i + 1) len
              (set_array v (array v ++ [val]))
        end
    end
  else ret (v, None).

Definition readArray (Read : M (Value * option error)) (fuel : nat)
  : M (Value * option error) :=
  let v := mkValue "array" "" 0 "" [] in
  let* (len, _, err) := readInteger in
  match err with
  | Some e => ret (v, Some e)
  | None => readArray_loop Read fuel 0 len (set_array v [])
  end.

(** [make([]byte, len)] panics when [len] is negative or above the
    largest allocation ([maxAlloc], 2^48 bytes on a 64-bit platform); the
    allocation is otherwise taken to succeed.  The new slice is all zero
    bytes. *)
Definition maxAlloc : Z := 2 ^ 48.

Definition readBulk : M (Value * option error) :=
  let v := mkValue "bulk" "" 0 "" [] in
  let* (len, _, err) := readInteger in
  match err with
  | Some e => ret (v, Some e)
  | None =>
      if (len <? 0) || (maxAlloc <? len) then panic
      else
        let bulk := replicate (Z.to_nat len) NUL in
        let* bulk := bufio_Read bulk in
        let v := set_bulk v (string_of_list_ascii bulk) in
        let* _ := readLine in
        ret (v, None)
  end.

Fixpoint Read_fuel (fuel : nat) : M (Value * option error) :=
  match fuel with
  | O => fun _ => OutOfFuel
  | S fuel' =>
      let* (_type, err) := ReadByte in
      match err with
      | Some e => ret (Value0, Some e)
      | None =>
          if Ascii.eqb _type ARRAY then readArray (Read_fuel fuel') fuel'
          else if Ascii.eqb _type BULK then readBulk
          else ret (Value0, None)
      end
  end.

(** A call of [Read] that returns without error has consumed its marker
    byte, so the nesting depth and the number of loop rounds are both
    bounded by the number of pending bytes. *)
Definition Read : M (Value * option error) := fun r =>
  Read_fuel (S (length (pending r))) r.

(** ** [Marshal] *)

Definition marshalString (v : Value) : bytes :=
  [STRING] ++ B (str v) ++ [CR; LF].

Definition marshalBulk (v : Value) : bytes :=
  [BULK] ++ B (Itoa (Z.of_nat (String.length (bulk v)))) ++ [CR; LF]
         ++ B (bulk v) ++ [CR; LF].

Definition marshallError (v : Value) : bytes :=
  [ERROR] ++ B (str v) ++ [CR; LF].

Definition marshallNull (v : Value) : bytes := B "$-1" ++ [CR; LF].

Fixpoint Marshal (v : Value) : bytes :=
  match v with
  | mkValue typ _ _ _ array =>
      if String.eqb typ "array" then
        (* marshalArray *)
        [ARRAY] ++ B (Itoa (Z.of_nat (length array))) ++ [CR; LF]
                ++ flat_map Marshal array
      else if String.eqb typ "bulk" then marshalBulk v
      else if String.eqb typ "string" then marshalString v
      else if String.eqb typ "null" then marshallNull v
      else if String.eqb typ "error" then marshallError v
      else []
  end.

(** [marshalArray] calls [Marshal] on the elements and [Marshal] calls
    [marshalArray]: above, its body stands in the "array" case. *)
Definition marshalArray (v : Value) : bytes :=
  [ARRAY] ++ B (Itoa (Z.of_nat (length (array v)))) ++ [CR; LF]
          ++ flat_map Marshal (array v).

Definition bulkV (s : string) : Value := mkValue "bulk" "" 0 s [].
Definition arrayV (a : list Value) : Value := mkValue "array" "" 0 "" a.

(** ** The store and the command handlers ([handler.go])

    The mutexes serialise the accesses to the two maps; a handler is one
    atomic step on the store. *)

Record Store : Type := mkStore {
  SETs : gmap string string;
  HSETs : gmap string (gmap string string)
}.

Definition empty_Store : Store := mkStore ∅ ∅.

Definition stringV (s : string) : Value := mkValue "string" s 0 "" [].
Definition errorV (s : string) : Value := mkValue "error" s 0 "" [].
Definition nullV : Value := mkValue "null" "" 0 "" [].

(** [args[i]]; every use below is guarded by a check of [len(args)]. *)
Definition arg (args : list Value) (i : nat) : Value := nth i args Value0.

Definition ping (args : list Value) (st : Store) : Value * Store :=
  if (length args =? 0)%nat then (stringV "PONG", st)
  else (stringV (bulk (arg args 0)), st).

Definition set (args : list Value) (st : Store) : Value * Store :=
  if negb (length args =? 2)%nat then
    (errorV "ERR wrong number of arguments for 'set' command", st)
  else
    let key := bulk (arg args 0) in
    let value := bulk (arg args 1) in
    (stringV "OK", mkStore (<[key := value]> (SETs st)) (HSETs st)).

Definition get (args : list Value) (st : Store) : Value * Store :=
  if negb (length args =? 1)%nat then
    (errorV "ERR wrong number of arguments for 'get' command", st)
  else
    let key := bulk (arg args 0) in
    match SETs st !! key with
    | None => (nullV, st)
    | Some value => (bulkV value, st)
    end.

Definition hset (args : list Value) (st : Store) : Value * Store :=
  if negb (length args =? 3)%nat then
    (errorV "ERR wrong number of arguments for 'hset' command", st)
  else
    let hash := bulk (arg args 0) in
    let key := bulk (arg args 1) in
    let value := bulk (arg args 2) in
    let hsets :=
      match HSETs st !! hash with
      | None => <[hash := ∅]> (HSETs st)
      | Some _ => HSETs st
      end in
    let hsets := <[hash := <[key := value]> (default ∅ (hsets !! hash))]> hsets in
    (stringV "OK", mkStore (SETs st) hsets).

(** A lookup in the nil map that [HSETs[hash]] yields for a missing hash
    finds nothing. *)
Definition hget (args : list Value) (st : Store) : Value * Store :=
  if negb (length args =? 2)%nat then
    (errorV "ERR wrong number of arguments for 'hget' command", st)
  else
    let hash := bulk (arg args 0) in
    let key := bulk (arg args 1) in
    match default ∅ (HSETs st !! hash) !! key with
    | None => (nullV, st)
    | Some value => (bulkV value, st)
    end.

(** strings.ToUpper on a string of ASCII bytes. *)
Definition upper_byte (c : byte) : byte :=
  let n := nat_of_ascii c in
  if (97 <=? n)%nat && (n <=? 122)%nat then ascii_of_nat (n - 32) else c.

Fixpoint ToUpper_ascii (s : string) : string :=
  match s with
  | EmptyString => EmptyString
  | String c s' => String (upper_byte c) (ToUpper_ascii s')
  end.

Section Server.

(** The order in which [range] visits a Go map is not specified: it is a
    parameter, some enumeration of the entries. *)
Variable range : gmap string string -> list (string * string).

(** [strings.ToUpper]; on ASCII input it is [ToUpper_ascii], on other
    input Go maps Unicode code points.  Nothing below depends on which
    function it is. *)
Variable ToUpper : string -> string.

Definition hgetall (args : list Value) (st : Store) : Value * Store :=
  if negb (length args =? 1)%nat then
    (errorV "ERR wrong number of arguments for 'hgetall' command", st)
  else
    let hash := bulk (arg args 0) in
    match HSETs st !! hash with
    | None => (nullV, st)
    | Some value =>
        let values :=
          foldl (fun values '(k, v) => (values ++ [bulkV k]) ++ [bulkV v])
                [] (range value) in
        (arrayV values, st)
    end.

Definition Handlers : gmap string (list Value -> Store -> Value * Store) :=
  list_to_map
    [("PING", ping); ("SET", set); ("GET", get);
     ("HSET", hset); ("HGET", hget); ("HGETALL", hgetall)].

(** ** The server ([main.go] and [aof.go])

    [aof] is the contents of the append-only file; [Aof.Write] puts the
    encoding at its end (the start-up replay has read the file to its
    end, which is where the file offset stands).  [conn] lists the values
    handed to [Writer.Write] on the connection, oldest first; the bytes
    sent are their encodings in that order.  Writes are taken to
    succeed. *)

Record Server : Type := mkServer {
  store : Store;
  aof : bytes;
  conn : list Value
}.

Definition Aof_Write (value : Value) (s : Server) : Server :=
  mkServer (store s) (aof s ++ Marshal value) (conn s).

Definition Writer_Write (v : Value) (s : Server) : Server :=
  mkServer (store s) (aof s) (conn s ++ [v]).

Definition conn_bytes (s : Server) : bytes := flat_map Marshal (conn s).

(** One round of the request loop of [main], from the decoded request
    on. *)
Definition serve (value : Value) (s : Server) : Server :=
  if negb (String.eqb (typ value) "array") then s
  else if (length (array value) =? 0)%nat then s
  else
    let command := ToUpper (bulk (arg (array value) 0)) in
    let args := drop 1 (array value) in
    match Handlers !! command with
    | None => Writer_Write (stringV "") s
    | Some handler =>
        let s :=
          if String.eqb command "SET" || String.eqb command "HSET"
          then Aof_Write value s else s in
        let '(result, st) := handler args (store s) in
        Writer_Write result (mkServer st (aof s) (conn s))
    end.

(** The callback that [main] passes to [Aof.Read].  [value.array[0]]
    panics on an empty array: the result is [None]. *)
Definition replay (value : Value) (st : Store) : option Store :=
  match array value with
  | [] => None
  | _ :: _ =>
      let command := ToUpper (bulk (arg (array value) 0)) in
      let args := drop 1 (array value) in
      match Handlers !! command with
      | None => Some st
      | Some handler => Some (handler args st).2
      end
  end.

(** [Aof.Read]: decode value after value until [io.EOF]. *)
Fixpoint Aof_Read_loop (fuel : nat) (fn : Value -> Store -> option Store)
  (st : Store) : M (Store * option error) :=
  match fuel with
  | O => fun _ => OutOfFuel
  | S fuel' =>
      let* (value, err) := Read in
      match err with
      | Some EOF => ret (st, None)
      | Some e => ret (st, Some e)
      | None =>
          match fn value st with
          | None => panic
          | Some st' => Aof_Read_loop fuel' fn st'
          end
      end
  end.

Definition Aof_Read (file : bytes) (fn : Value -> Store -> option Store)
  (st : Store) : res (Store * option error) :=
  let reader := newrESP file in
  Aof_Read_loop (S (length file)) fn st reader.

(** Start-up: the store rebuilt from the file. *)
Definition startup (file : bytes) : res (Store * option error) :=
  Aof_Read file replay empty_Store.

(** The requests of a session served in order. *)
Definition serve_all (reqs : list Value) (s : Server) : Server :=
  foldl (fun s value => serve value s) s reqs.

End Server.

(** ** Vocabulary of the statements *)

(** A request as a client sends it: an array of bulk strings. *)
Definition request (words : list string) : Value := arrayV (map bulkV words).

(** A handler call by name, on the store alone. *)
Definition call (range : gmap string string -> list (string * string))
  (c : string * list Value) (st : Store) : Store :=
  match Handlers range !! c.1 with
  | None => st
  | Some handler => (handler c.2 st).2
  end.

Definition calls (range : gmap string string -> list (string * string))
  (cs : list (string * list Value)) (st : Store) : Store :=
  foldl (fun st c => call range c st) st cs.

(** [c] is a [SET] that stores under [k]. *)
Definition writes_key (k : string) (c : string * list Value) : Prop :=
  c.1 = "SET" /\ length c.2 = 2%nat /\ bulk (arg c.2 0) = k.

(** [HSET h f v] for every pair of the list, in order. *)
Definition hset_all (h : string) (ps : list (string * string)) (st : Store)
  : Store :=
  foldl (fun st '(f, v) => (hset [bulkV h; bulkV f; bulkV v] st).2) st ps.

(** Field, value, field, value, ... *)
Definition alternating (ps : list (string * string)) : list Value :=
  flat_map (fun '(f, v) => [bulkV f; bulkV v]) ps.

(** The values that travel as requests and log entries: bulk strings and
    arrays of such values. *)
Fixpoint wire (v : Value) : bool :=
  match v with
  | mkValue typ _ _ _ array =>
      if String.eqb typ "array" then forallb wire array
      else String.eqb typ "bulk"
  end.

(** The variant and its content, with the fields that the variant does not
    use set to their zero values. *)
Fixpoint canon (v : Value) : Value :=
  match v with
  | mkValue typ str num bulk array =>
      if String.eqb typ "array" then arrayV (map canon array)
      else if String.eqb typ "bulk" then bulkV bulk
      else if String.eqb typ "string" then stringV str
      else if String.eqb typ "error" then errorV str
      else if String.eqb typ "null" then nullV
      else v
  end.

(** Same variant, same content, same order of the elements. *)
Definition equivalent (v w : Value) : Prop := canon v = canon w.

(** The reader state in which the underlying source is exhausted. *)
Definition drained (r : rESP) : Prop := rd r = [].

(** [r'] is what is left of [r] when exactly [rest] is still pending. *)
Definition leaves (r : rESP) (rest : bytes) (r' : rESP) : Prop :=
  pending r' = rest /\ (drained r -> drained r').

(** What a request made of the words [ws] does to the store when it is
    dispatched. *)
Definition exec (range : gmap string string -> list (string * string))
  (ToUpper : string -> string) (ws : list string) (st : Store) : Store :=
  match ws with
  | [] => st
  | w :: args =>
      match Handlers range !! ToUpper w with
      | None => st
      | Some handler => (handler (map bulkV args) st).2
      end
  end.

(** The requests that [main] appends to the file. *)
Definition is_write (ToUpper : string -> string) (ws : list string) : bool :=
  match ws with
  | [] => false
  | w :: _ => String.eqb (ToUpper w) "SET" || String.eqb (ToUpper w) "HSET"
  end.

(** A server that has just started on an empty file. *)
Definition fresh : Server := mkServer empty_Store [] [].

(** The request [SET key gostore!], 114 times over: 36 bytes each on the
    wire, 4104 bytes in all. *)
Definition busy_session : list Value :=
  replicate 114 (request ["SET"; "key"; "gostore!"]).

(** The number of bytes still to be delivered. *)
Definition size (r : rESP) : nat := length (pending r).
Arguments size : simpl never.

(** The result is a return that has not added pending bytes, or a panic. *)
Definition settles {A} (r : rESP) (x : res A) : Prop :=
  match x with
  | Done _ r' => (size r' <= size r)%nat
  | Panic => True
  | OutOfFuel => False
  end.

(** The same, and a return without error has consumed a byte. *)
Definition advances {A} (r : rESP) (x : res (A * option error)) : Prop :=
  match x with
  | Done (_, None) r' => (size r' < size r)%nat
  | Done (_, Some _) r' => (size r' <= size r)%nat
  | Panic => True
  | OutOfFuel => False
  end.


(** * Properties *)

(** A stronger induction principle: the elements of [array] satisfy [P]. *)
Lemma Value_rect' (P : Value -> Type) (Q : list Value -> Type)
  (Hnil : Q [])
  (Hcons : forall v l, P v -> Q l -> Q (v :: l))
  (Hmk : forall t s n b a, Q a -> P (mkValue t s n b a)) :
  forall v, P v.
Proof.
  fix IH 1. intros [t s n b a]. apply Hmk.
  induction a as [|v a IHa]; [exact Hnil | exact (Hcons v a (IH v) IHa)].
Defined.

Lemma Value_ind' (P : Value -> Prop)
  (Hmk : forall t s n b a, Forall P a -> P (mkValue t s n b a)) :
  forall v, P v.
Proof.
  apply (Value_rect' P (Forall P)); auto.
Qed.

(** ** The handlers *)

Section HandlerFacts.

Variable range : gmap string string -> list (string * string).

(** The six entries of [Handlers], and nothing else. *)
Lemma Handlers_lookup name h :
  Handlers range !! name = Some h ->
  (name = "PING" /\ h = ping) \/ (name = "SET" /\ h = set) \/
  (name = "GET" /\ h = get) \/ (name = "HSET" /\ h = hset) \/
  (name = "HGET" /\ h = hget) \/ (name = "HGETALL" /\ h = hgetall range).
Proof.
  unfold Handlers. intros H.
  apply elem_of_list_to_map_2 in H.
  repeat (apply elem_of_cons in H as [H | H];
          [inversion H; subst; tauto |]).
  inversion H.
Qed.

Lemma Handlers_SET : Handlers range !! "SET" = Some set.
Proof. reflexivity. Qed.

Lemma Handlers_HSET : Handlers range !! "HSET" = Some hset.
Proof. reflexivity. Qed.

(** Only [set] touches the flat map, and only under its key. *)
Lemma call_SETs_other k c st :
  ~ writes_key k c ->
  SETs (call range c st) !! k = SETs st !! k.
Proof.
  destruct c as [name args]. unfold call, writes_key. simpl. intros Hw.
  destruct (Handlers range !! name) as [h|] eqn:Hh; [|done].
  apply Handlers_lookup in Hh
    as [[-> ->]|[[-> ->]|[[-> ->]|[[-> ->]|[[-> ->]|[-> ->]]]]]].
  - unfold ping. by destruct (length args =? 0)%nat.
  - unfold set. destruct (length args =? 2)%nat eqn:Hl; simpl; [|done].
    apply Nat.eqb_eq in Hl.
    apply lookup_insert_ne. intros Hk. apply Hw. auto.
  - unfold get. destruct (negb _); [done|]. by destruct (SETs st !! _).
  - unfold hset. by destruct (negb _).
  - unfold hget. by repeat case_match.
  - unfold hgetall. by repeat case_match.
Qed.

Lemma calls_SETs_other k cs st :
  Forall (fun c => ~ writes_key k c) cs ->
  SETs (calls range cs st) !! k = SETs st !! k.
Proof.
  unfold calls. intros H. revert st.
  induction H as [|c cs Hc _ IH]; intros st; simpl; [done|].
  rewrite IH. by apply call_SETs_other.
Qed.

Lemma set_get k v st :
  get [bulkV k] (set [bulkV k; bulkV v] st).2
  = (bulkV v, (set [bulkV k; bulkV v] st).2).
Proof.
  unfold get, set. simpl. by rewrite lookup_insert_eq.
Qed.

Lemma get_absent k st :
  SETs st !! k = None -> get [bulkV k] st = (nullV, st).
Proof. unfold get. simpl. by intros ->. Qed.

(** C3: [SET k v] followed by [GET k] returns the bulk value [v], for all
    non-empty strings [k] and [v]; and [GET] on a key that no [SET] of
    the history [cs] (any handler calls, started on the empty store) has
    written returns the null value, which is not an error value. *)
Theorem C3_set_get_and_get_unwritten (k v : string) (st : Store)
  (k' : string) (cs : list (string * list Value)) :
  k <> "" -> v <> "" ->
  Forall (fun c => ~ writes_key k' c) cs ->
  get [bulkV k] (set [bulkV k; bulkV v] st).2
    = (bulkV v, (set [bulkV k; bulkV v] st).2)
  /\ (get [bulkV k'] (calls range cs empty_Store)).1 = nullV
  /\ typ (get [bulkV k'] (calls range cs empty_Store)).1 = "null"
  /\ typ (get [bulkV k'] (calls range cs empty_Store)).1 <> "error".
Proof.
  intros _ _ Hcs. split; [apply set_get|].
  rewrite get_absent.
  - simpl. repeat split. discriminate.
  - rewrite calls_SETs_other by done. apply lookup_empty.
Qed.

Lemma set_arity args st :
  length args <> 2%nat ->
  set args st = (errorV "ERR wrong number of arguments for 'set' command", st).
Proof.
  intros H. unfold set. by destruct (Nat.eqb_spec (length args) 2).
Qed.

Lemma get_arity args st :
  length args <> 1%nat ->
  get args st = (errorV "ERR wrong number of arguments for 'get' command", st).
Proof.
  intros H. unfold get. by destruct (Nat.eqb_spec (length args) 1).
Qed.

Lemma hset_arity args st :
  length args <> 3%nat ->
  hset args st
  = (errorV "ERR wrong number of arguments for 'hset' command", st).
Proof.
  intros H. unfold hset. by destruct (Nat.eqb_spec (length args) 3).
Qed.

Lemma hget_arity args st :
  length args <> 2%nat ->
  hget args st
  = (errorV "ERR wrong number of arguments for 'hget' command", st).
Proof.
  intros H. unfold hget. by destruct (Nat.eqb_spec (length args) 2).
Qed.

Lemma hgetall_arity args st :
  length args <> 1%nat ->
  hgetall range args st
  = (errorV "ERR wrong number of arguments for 'hgetall' command", st).
Proof.
  intros H. unfold hgetall. by destruct (Nat.eqb_spec (length args) 1).
Qed.

(** C5: each of [set], [get], [hset], [hget], [hgetall], called with an
    argument list whose length is not the one it expects, returns an
    error value and leaves both maps of the store as they were. *)
Theorem C5_wrong_arity (args : list Value) (st : Store) :
  (length args <> 2%nat ->
     typ (set args st).1 = "error" /\ (set args st).2 = st) /\
  (length args <> 1%nat ->
     typ (get args st).1 = "error" /\ (get args st).2 = st) /\
  (length args <> 3%nat ->
     typ (hset args st).1 = "error" /\ (hset args st).2 = st) /\
  (length args <> 2%nat ->
     typ (hget args st).1 = "error" /\ (hget args st).2 = st) /\
  (length args <> 1%nat ->
     typ (hgetall range args st).1 = "error"
     /\ (hgetall range args st).2 = st).
Proof.
  repeat match goal with |- _ /\ _ => split end; intros H.
  - by rewrite set_arity.
  - by rewrite get_arity.
  - by rewrite hset_arity.
  - by rewrite hget_arity.
  - by rewrite hgetall_arity.
Qed.

End HandlerFacts.

Lemma C3_witness :
  get [bulkV "k"] (set [bulkV "k"; bulkV "v"] empty_Store).2
    = (bulkV "v", (set [bulkV "k"; bulkV "v"] empty_Store).2)
  /\ (get [bulkV "a"]
        (calls map_to_list [("SET", [bulkV "k"; bulkV "v"])] empty_Store)).1
     = nullV.
Proof.
  destruct (C3_set_get_and_get_unwritten map_to_list "k" "v" empty_Store "a"
              [("SET", [bulkV "k"; bulkV "v"])]) as (H1 & H2 & _).
  - discriminate.
  - discriminate.
  - repeat constructor. unfold writes_key. simpl. intros (_ & _ & Hk).
    discriminate.
  - exact (conj H1 H2).
Defined.

Lemma C5_witness :
  typ (set [bulkV "k"] empty_Store).1 = "error"
  /\ typ (get [] empty_Store).1 = "error"
  /\ typ (hset [bulkV "h"; bulkV "f"] empty_Store).1 = "error"
  /\ typ (hget [bulkV "h"] empty_Store).1 = "error"
  /\ typ (hgetall map_to_list [] empty_Store).1 = "error".
Proof.
  destruct (C5_wrong_arity map_to_list [bulkV "k"] empty_Store)
    as (Hset & _).
  destruct (C5_wrong_arity map_to_list [] empty_Store)
    as (_ & Hget & _ & _ & Hgetall).
  destruct (C5_wrong_arity map_to_list [bulkV "h"; bulkV "f"] empty_Store)
    as (_ & _ & Hhset & _).
  destruct (C5_wrong_arity map_to_list [bulkV "h"] empty_Store)
    as (_ & _ & _ & Hhget & _).
  refine (conj (proj1 (Hset _)) (conj (proj1 (Hget _))
            (conj (proj1 (Hhset _)) (conj (proj1 (Hhget _))
               (proj1 (Hgetall _)))))); simpl; lia.
Defined.

(** ** Hashes *)

Section HashFacts.

Variable range : gmap string string -> list (string * string).

(** [range] visits every entry of the map once, in some order. *)
Hypothesis range_entries : forall m, range m ≡ₚ map_to_list m.

Lemma hset_hash h f v st :
  HSETs (hset [bulkV h; bulkV f; bulkV v] st).2 !! h
  = Some (<[f := v]> (default ∅ (HSETs st !! h))).
Proof.
  unfold hset. simpl.
  destruct (HSETs st !! h) as [m|] eqn:Hm; simpl.
  - by rewrite lookup_insert_eq, Hm.
  - by rewrite !lookup_insert_eq.
Qed.

Lemma hset_hget h f v st :
  hget [bulkV h; bulkV f] (hset [bulkV h; bulkV f; bulkV v] st).2
  = (bulkV v, (hset [bulkV h; bulkV f; bulkV v] st).2).
Proof.
  unfold hget at 1. simpl length. simpl negb. cbv iota.
  change (bulk (arg [bulkV h; bulkV f] 0)) with h.
  change (bulk (arg [bulkV h; bulkV f] 1)) with f.
  rewrite hset_hash. simpl. by rewrite lookup_insert_eq.
Qed.

Lemma hset_all_cons h f v ps st :
  hset_all h ((f, v) :: ps) st
  = hset_all h ps (hset [bulkV h; bulkV f; bulkV v] st).2.
Proof. reflexivity. Qed.

Lemma hset_all_hash_some h ps : forall st m,
  HSETs st !! h = Some m ->
  HSETs (hset_all h ps st) !! h
  = Some (foldl (fun m '(f, v) => <[f := v]> m) m ps).
Proof.
  induction ps as [|[f v] ps IH]; intros st m Hm; [exact Hm|].
  rewrite hset_all_cons. cbn [foldl]. apply IH.
  rewrite hset_hash. by rewrite Hm.
Qed.

Lemma hset_all_hash h ps st :
  ps <> [] ->
  HSETs (hset_all h ps st) !! h
  = Some (foldl (fun m '(f, v) => <[f := v]> m)
                (default ∅ (HSETs st !! h)) ps).
Proof.
  destruct ps as [|[f v] ps]; [done|]. intros _.
  rewrite hset_all_cons. cbn [foldl].
  apply hset_all_hash_some, hset_hash.
Qed.

Lemma foldl_insert_list_to_map (ps : list (string * string)) :
  foldl (fun m '(f, v) => <[f := v]> m) (∅ : gmap string string) ps
  = list_to_map (reverse ps).
Proof.
  induction ps as [|[f v] ps IH] using rev_ind; [done|].
  rewrite foldl_app, reverse_app. simpl. by rewrite IH.
Qed.

Lemma hgetall_values (l : list (string * string)) acc :
  foldl (fun values '(k, v) => (values ++ [bulkV k]) ++ [bulkV v]) acc l
  = acc ++ alternating l.
Proof.
  revert acc. induction l as [|[k v] l IH]; intros acc; simpl.
  - by rewrite app_nil_r.
  - rewrite IH. by rewrite <- !app_assoc.
Qed.

Lemma alternating_length ps :
  length (alternating ps) = (2 * length ps)%nat.
Proof. induction ps as [|[f v] ps IH]; simpl; lia. Qed.

(** C9: [HSET h f v] followed by [HGET h f] returns [v]; and after the
    [HSET]s of [N >= 1] pairs with pairwise distinct fields on a hash
    [h] that did not exist before, [HGETALL h] returns an array of
    exactly [2N] bulk strings: the pairs, each once, in some order, every
    field immediately followed by its value. *)
Theorem C9_hset_hget_hgetall (h f v : string) (st : Store)
  (ps : list (string * string)) (st0 : Store) :
  ps <> [] ->
  NoDup ps.*1 ->
  HSETs st0 !! h = None ->
  hget [bulkV h; bulkV f] (hset [bulkV h; bulkV f; bulkV v] st).2
    = (bulkV v, (hset [bulkV h; bulkV f; bulkV v] st).2)
  /\ exists ps',
       ps' ≡ₚ ps
       /\ hgetall range [bulkV h] (hset_all h ps st0)
          = (arrayV (alternating ps'), hset_all h ps st0)
       /\ length (alternating ps') = (2 * length ps)%nat.
Proof.
  intros Hne Hnd Hfresh. split; [apply hset_hget|].
  pose proof (hset_all_hash h ps st0 Hne) as Hm.
  rewrite Hfresh in Hm. simpl in Hm. rewrite foldl_insert_list_to_map in Hm.
  exists (range (list_to_map (reverse ps))).
  assert (Hperm : range (list_to_map (reverse ps)) ≡ₚ ps).
  { rewrite range_entries, map_to_list_to_map.
    - apply reverse_Permutation.
    - by rewrite fmap_reverse, reverse_Permutation. }
  split; [exact Hperm|]. split.
  - unfold hgetall. simpl.
    change (bulk (arg [bulkV h] 0)) with h. rewrite Hm.
    by rewrite hgetall_values.
  - rewrite alternating_length. by rewrite Hperm.
Qed.

End HashFacts.

Lemma C9_witness :
  hget [bulkV "h"; bulkV "f"]
       (hset [bulkV "h"; bulkV "f"; bulkV "v"] empty_Store).2
    = (bulkV "v", (hset [bulkV "h"; bulkV "f"; bulkV "v"] empty_Store).2)
  /\ exists ps',
       ps' ≡ₚ [("f", "v"); ("g", "w")]
       /\ hgetall map_to_list [bulkV "h"]
            (hset_all "h" [("f", "v"); ("g", "w")] empty_Store)
          = (arrayV (alternating ps'),
             hset_all "h" [("f", "v"); ("g", "w")] empty_Store)
       /\ length (alternating ps') = 4%nat.
Proof.
  apply (C9_hset_hget_hgetall map_to_list (fun m => reflexivity _)
           "h" "f" "v" empty_Store [("f", "v"); ("g", "w")] empty_Store).
  - discriminate.
  - apply (bool_decide_unpack _). vm_compute. exact I.
  - reflexivity.
Defined.

(** ** The request loop *)

Section ServerFacts.

Variable range : gmap string string -> list (string * string).
Variable ToUpper : string -> string.

Lemma serve_dispatch value s :
  typ value = "array" -> array value <> [] ->
  serve range ToUpper value s
  = let command := ToUpper (bulk (arg (array value) 0)) in
    let args := drop 1 (array value) in
    match Handlers range !! command with
    | None => Writer_Write (stringV "") s
    | Some handler =>
        let s :=
          if String.eqb command "SET" || String.eqb command "HSET"
          then Aof_Write value s else s in
        let '(result, st) := handler args (store s) in
        Writer_Write result (mkServer st (aof s) (conn s))
    end.
Proof.
  intros Ht Ha. unfold serve. rewrite Ht. simpl.
  destruct (array value); [done|reflexivity].
Qed.

(** C4, as the code has it: a request whose upper-cased command name is
    not in [Handlers] is answered with a simple string of empty text
    (not with an error value); the store and the append-only file are
    left as they were. *)
Theorem C4_unknown_command (value : Value) (s : Server) :
  typ value = "array" ->
  array value <> [] ->
  Handlers range !! ToUpper (bulk (arg (array value) 0)) = None ->
  conn (serve range ToUpper value s) = conn s ++ [stringV ""]
  /\ typ (stringV "") = "string"
  /\ store (serve range ToUpper value s) = store s
  /\ aof (serve range ToUpper value s) = aof s.
Proof.
  intros Ht Ha Hh. rewrite serve_dispatch by done. simpl. by rewrite Hh.
Qed.


End ServerFacts.

(** C4, as stated, fails: the request [FOOP] is answered with the simple
    string of empty text, and no error value is sent. *)
Lemma C4_counterexample :
  let s := serve map_to_list ToUpper_ascii (request ["FOOP"])
             (mkServer empty_Store [] []) in
  conn s = [stringV ""]
  /\ conn_bytes s = B "+" ++ [CR; LF]
  /\ ~ (exists e, e ∈ conn s /\ typ e = "error").
Proof.
  split; [reflexivity|]. split; [reflexivity|].
  intros (e & He & Ht). simpl in He.
  apply list_elem_of_singleton in He. subst e. discriminate.
Qed.

Lemma C4_witness :
  let s := serve map_to_list ToUpper_ascii (request ["FOOP"])
             (mkServer empty_Store [] []) in
  conn s = [] ++ [stringV ""] /\ store s = empty_Store /\ aof s = [].
Proof.
  destruct (C4_unknown_command map_to_list ToUpper_ascii (request ["FOOP"])
              (mkServer empty_Store [] [])) as (H1 & _ & H2 & H3).
  - reflexivity.
  - discriminate.
  - reflexivity.
  - exact (conj H1 (conj H2 H3)).
Defined.


(** ** The buffered reader *)

Lemma ReadByte_cons r c rest :
  pending r = c :: rest ->
  exists r', ReadByte r = Done (c, None) r' /\ leaves r rest r'.
Proof.
  destruct r as [b s]. unfold pending, ReadByte, leaves, drained. simpl.
  destruct b as [|c' b]; simpl.
  - intros ->. simpl. eexists. split; [reflexivity|]. simpl.
    split; [apply take_drop | discriminate].
  - intros [= -> <-]. eexists. split; [reflexivity|]. simpl. auto.
Qed.

Lemma ReadByte_nil r :
  pending r = [] -> ReadByte r = Done (NUL, Some EOF) r.
Proof.
  destruct r as [b s]. unfold pending, ReadByte. simpl.
  intros H. apply app_eq_nil in H as [-> ->]. reflexivity.
Qed.

Lemma leaves_trans r1 r2 r3 s t :
  leaves r1 s r2 -> leaves r2 t r3 -> leaves r1 t r3.
Proof. unfold leaves. intros [_ H1] [H2 H3]. auto. Qed.

Lemma leaves_drained r rest r' :
  leaves r rest r' -> drained r -> r' = mkrESP rest [].
Proof.
  unfold leaves, drained, pending. intros [Hp Hd] Hr.
  destruct r' as [b s]. simpl in *. rewrite (Hd Hr) in *.
  by rewrite app_nil_r in Hp; subst.
Qed.

(** ** [readLine] *)

Lemma line_ended_no_CR acc x :
  CR ∉ acc -> line_ended (acc ++ [x]) = false.
Proof.
  intros Hacc. unfold line_ended.
  destruct acc as [|y acc] using rev_ind; [reflexivity|].
  rewrite !length_app. simpl.
  replace (length acc + 1 + 1 - 2)%nat with (length acc) by lia.
  rewrite <- app_assoc. rewrite app_nth2 by lia.
  rewrite Nat.sub_diag. simpl.
  destruct (Ascii.eqb_spec y CR) as [->|]; [|by rewrite andb_false_r].
  exfalso. apply Hacc, elem_of_app. right. left.
Qed.

Lemma line_ended_CR acc c : line_ended (acc ++ [CR; c]) = true.
Proof.
  unfold line_ended. rewrite length_app.
  change (length [CR; c]) with 2%nat.
  replace (length acc + 2 - 2)%nat with (length acc) by lia.
  rewrite app_nth2 by lia. rewrite Nat.sub_diag. cbn [nth].
  rewrite Ascii.eqb_refl, andb_true_r. apply Nat.leb_le. lia.
Qed.

(** The loop stops at the first [CR] that has a byte after it, whatever
    that byte is, and returns what came before the [CR]. *)
Lemma readLine_loop_spec l : forall fuel acc n r c rest,
  CR ∉ acc -> CR ∉ l ->
  pending r = l ++ CR :: c :: rest ->
  (length l + 2 <= fuel)%nat ->
  exists n' r',
    readLine_loop fuel acc n r = Done (acc ++ l, n', None) r'
    /\ leaves r rest r'.
Proof.
  induction l as [|x l IH]; intros fuel acc n r c rest Hacc Hl Hp Hf.
  - simpl in Hp. destruct fuel as [|[|fuel]]; [simpl in Hf; lia..|].
    destruct (ReadByte_cons _ _ _ Hp) as (r1 & HR1 & Hl1).
    destruct (ReadByte_cons _ _ _ (proj1 Hl1)) as (r2 & HR2 & Hl2).
    cbn [readLine_loop]. unfold bind at 1. rewrite HR1.
    rewrite line_ended_no_CR by done.
    cbn [readLine_loop]. unfold bind at 1. rewrite HR2.
    replace ((acc ++ [CR]) ++ [c]) with (acc ++ [CR; c])
      by (by rewrite <- app_assoc).
    rewrite line_ended_CR.
    unfold ret. do 2 eexists. split.
    + rewrite length_app. change (length [CR; c]) with 2%nat.
      replace (length acc + 2 - 2)%nat with (length acc) by lia.
      rewrite take_app_length, app_nil_r. reflexivity.
    + eapply leaves_trans; eauto.
  - simpl in Hp. destruct fuel as [|fuel]; [simpl in Hf; lia|].
    destruct (ReadByte_cons _ _ _ Hp) as (r1 & HR1 & Hl1).
    cbn [readLine_loop]. unfold bind at 1. rewrite HR1.
    rewrite line_ended_no_CR by done.
    destruct (IH fuel (acc ++ [x]) (wrap_int (n + 1)) r1 c rest)
      as (n' & r' & HR & Hl').
    + intros H. apply elem_of_app in H as [H|H]; [done|].
      apply list_elem_of_singleton in H. subst x. apply Hl. left.
    + intros H. apply Hl. by right.
    + apply Hl1.
    + simpl in Hf. lia.
    + exists n', r'. rewrite HR. rewrite <- app_assoc. split; [done|].
      eapply leaves_trans; eauto.
Qed.

Lemma readLine_spec r line c rest :
  CR ∉ line ->
  pending r = line ++ CR :: c :: rest ->
  exists n r', readLine r = Done (line, n, None) r' /\ leaves r rest r'.
Proof.
  intros Hl Hp. unfold readLine.
  destruct (readLine_loop_spec line (S (length (pending r))) [] 0 r c rest)
    as (n & r' & HR & Hl'); try done.
  - inversion 1.
  - rewrite Hp, length_app. simpl. lia.
  - eauto.
Qed.

(** ** Decimal numbers *)

Lemma digit_char_spec d :
  0 <= d < 10 ->
  is_digit (digit_char d) = true /\ digit_val (digit_char d) = d.
Proof.
  intros H.
  assert (Hd : d = 0 \/ d = 1 \/ d = 2 \/ d = 3 \/ d = 4 \/ d = 5 \/ d = 6
               \/ d = 7 \/ d = 8 \/ d = 9) by lia.
  repeat (destruct Hd as [-> | Hd]; [split; reflexivity|]).
  subst d. split; reflexivity.
Qed.

Lemma is_digit_not_special c :
  is_digit c = true ->
  (Ascii.eqb c CR = false /\ Ascii.eqb c "+" = false)
  /\ Ascii.eqb c "-" = false.
Proof.
  destruct c as [[] [] [] [] [] [] [] []]; vm_compute; auto; discriminate.
Qed.

Lemma string_app_cons c (s1 s2 : string) :
  (String c s1 +:+ s2)%string = String c (s1 +:+ s2).
Proof. reflexivity. Qed.

Lemma string_app_assoc (s1 s2 s3 : string) :
  ((s1 +:+ s2) +:+ s3 = s1 +:+ (s2 +:+ s3))%string.
Proof.
  induction s1 as [|c s1 IH]; [reflexivity|].
  rewrite !string_app_cons. by rewrite IH.
Qed.

Lemma format_digits_acc fuel : forall u acc,
  format_digits fuel u acc = (format_digits fuel u "" +:+ acc)%string.
Proof.
  induction fuel as [|fuel IH]; intros u acc; cbn [format_digits]; [done|].
  destruct (u <? 10); [done|].
  rewrite IH. rewrite (IH _ (String _ "")).
  by rewrite string_app_assoc.
Qed.

Lemma parse_digits_app s1 : forall n s2,
  parse_digits n (s1 +:+ s2)
  = match parse_digits n s1 with
    | (n', None) => parse_digits n' s2
    | e => e
    end.
Proof.
  induction s1 as [|c s1 IH]; intros n s2; [done|].
  rewrite string_app_cons. cbn [parse_digits].
  destruct (is_digit c); [|done].
  destruct (maxUint64 <? n * 10 + digit_val c); [done|]. apply IH.
Qed.

Lemma parse_format_digits fuel : forall u,
  0 <= u < 10 ^ Z.of_nat fuel ->
  u <= maxUint64 ->
  parse_digits 0 (format_digits fuel u "") = (u, None).
Proof.
  induction fuel as [|fuel IH]; intros u Hu Hmax.
  - change (10 ^ Z.of_nat 0) with 1 in Hu.
    assert (u = 0) as -> by lia. reflexivity.
  - rewrite Nat2Z.inj_succ, Z.pow_succ_r in Hu by lia.
    cbn [format_digits]. destruct (Z.ltb_spec u 10) as [Hlt|Hge].
    + destruct (digit_char_spec u) as [Hd Hv]; [lia|].
      simpl. rewrite Hd, Hv. simpl.
      replace (0 * 10 + u) with u by lia.
      destruct (Z.ltb_spec maxUint64 u); [lia|done].
    + rewrite format_digits_acc, parse_digits_app.
      assert (Hdiv : u = 10 * (u / 10) + u mod 10) by (apply Z.div_mod; lia).
      assert (Hmod : 0 <= u mod 10 < 10) by (apply Z.mod_pos_bound; lia).
      rewrite IH by lia.
      destruct (digit_char_spec (u mod 10)) as [Hd Hv]; [lia|].
      simpl. rewrite Hd, Hv.
      replace (u / 10 * 10 + u mod 10) with u by lia.
      destruct (Z.ltb_spec maxUint64 u); [lia|done].
Qed.

Lemma format_digits_all_digits fuel : forall u acc,
  0 <= u ->
  Forall (fun c => is_digit c = true) (list_ascii_of_string acc) ->
  Forall (fun c => is_digit c = true)
         (list_ascii_of_string (format_digits fuel u acc)).
Proof.
  induction fuel as [|fuel IH]; intros u acc Hu Hacc; [done|].
  cbn [format_digits]. destruct (Z.ltb_spec u 10).
  - simpl. constructor; [|done]. apply digit_char_spec. lia.
  - apply IH; [apply Z.div_pos; lia|].
    simpl. constructor; [|done]. apply digit_char_spec.
    apply Z.mod_pos_bound. lia.
Qed.

Lemma format_digits_cons fuel : forall u acc,
  acc <> ""%string \/ fuel <> O ->
  exists c s, format_digits fuel u acc = String c s.
Proof.
  induction fuel as [|fuel IH]; intros u acc H.
  - destruct H as [H|H]; [|done]. destruct acc; [done|]. simpl. eauto.
  - cbn [format_digits]. destruct (u <? 10); [eauto|].
    apply IH. by left.
Qed.

(** [strconv.ParseInt] reads back what [strconv.Itoa] prints. *)
Lemma ParseInt_Itoa n :
  0 <= n < 2 ^ 63 -> ParseInt (Itoa n) = (n, None).
Proof.
  intros Hn. unfold Itoa. destruct (Z.ltb_spec n 0); [lia|].
  pose proof (parse_format_digits 20 n) as Hparse.
  pose proof (format_digits_all_digits 20 n "" ltac:(lia) ltac:(constructor))
    as Hall.
  destruct (format_digits_cons 20 n "" ltac:(by right)) as (c & s & Hs).
  rewrite Hs in *. simpl in Hall. apply Forall_cons in Hall as [Hc _].
  apply is_digit_not_special in Hc as [[_ Hplus] Hminus].
  unfold ParseInt. rewrite Hplus, Hminus. cbn [orb]. unfold ParseUint.
  rewrite Hparse.
  - cbn [negb andb]. destruct (Z.leb_spec (2 ^ 63) n); [lia|done].
  - change (10 ^ Z.of_nat 20) with 100000000000000000000. lia.
  - unfold maxUint64. lia.
Qed.

Lemma Itoa_no_CR n : 0 <= n -> CR ∉ list_ascii_of_string (Itoa n).
Proof.
  intros Hn. unfold Itoa. destruct (Z.ltb_spec n 0); [lia|].
  pose proof (format_digits_all_digits 20 n "" ltac:(lia) ltac:(constructor))
    as Hall.
  intros Hin. rewrite Forall_forall in Hall. apply Hall in Hin.
  discriminate.
Qed.

Lemma parse_digits_ok s : forall n m,
  parse_digits n s = (m, None) ->
  Forall (fun c => is_digit c = true) (list_ascii_of_string s).
Proof.
  induction s as [|c s IH]; intros n m H; [constructor|].
  cbn [parse_digits] in H. destruct (is_digit c) eqn:Hc; [|done].
  destruct (maxUint64 <? n * 10 + digit_val c); [done|].
  simpl. constructor; [done|]. by eapply IH.
Qed.

Lemma parse_digits_range s : forall n m,
  parse_digits n s = (m, Some ErrRange) -> m = maxUint64.
Proof.
  induction s as [|c s IH]; intros n m H; [done|].
  cbn [parse_digits] in H. destruct (is_digit c); [|done].
  destruct (maxUint64 <? n * 10 + digit_val c); [congruence|]. by eapply IH.
Qed.

Lemma ParseUint_ok s m :
  ParseUint s = (m, None) ->
  Forall (fun c => is_digit c = true) (list_ascii_of_string s).
Proof. destruct s; [done|]. apply parse_digits_ok. Qed.

Lemma ParseUint_range s m :
  ParseUint s = (m, Some ErrRange) -> m = maxUint64.
Proof. destruct s; [done|]. apply parse_digits_range. Qed.

(** A line that [strconv.ParseInt] accepts holds no [CR]. *)
Lemma ParseInt_ok_no_CR s n :
  ParseInt s = (n, None) -> CR ∉ list_ascii_of_string s.
Proof.
  destruct s as [|c0 s1]; [done|]. unfold ParseInt.
  set (s' := if Ascii.eqb c0 "+" || Ascii.eqb c0 "-"
             then s1 else String c0 s1).
  destruct (ParseUint s') as [un [e|]] eqn:Hu.
  { destruct e; try done. apply ParseUint_range in Hu as ->.
    by destruct (Ascii.eqb c0 "-"). }
  intros _. apply ParseUint_ok in Hu. rewrite Forall_forall in Hu.
  assert (Hnot : forall c, c ∈ list_ascii_of_string s' -> c <> CR).
  { intros c Hc ->. apply Hu in Hc. discriminate. }
  subst s'. destruct (Ascii.eqb c0 "+" || Ascii.eqb c0 "-") eqn:Hsign.
  - simpl. intros Hin. apply elem_of_cons in Hin as [Hin|Hin].
    + subst c0. discriminate.
    + by apply (Hnot _ Hin).
  - intros Hin. by apply (Hnot _ Hin).
Qed.

(** ** [readInteger] and [Read] *)

Lemma readInteger_spec r line c rest len :
  CR ∉ line ->
  ParseInt (string_of_list_ascii line) = (len, None) ->
  pending r = line ++ CR :: c :: rest ->
  exists n r', readInteger r = Done (len, n, None) r' /\ leaves r rest r'.
Proof.
  intros Hl Hparse Hp.
  destruct (readLine_spec r line c rest Hl Hp) as (n & r' & HR & Hl').
  exists n, r'. split; [|done].
  unfold readInteger, bind. rewrite HR. by rewrite Hparse.
Qed.

Lemma Read_fuel_marker fuel r c rest :
  pending r = c :: rest ->
  exists r1, leaves r rest r1 /\
    Read_fuel (S fuel) r
    = if Ascii.eqb c ARRAY then readArray (Read_fuel fuel) fuel r1
      else if Ascii.eqb c BULK then readBulk r1
      else Done (Value0, None) r1.
Proof.
  intros Hp. destruct (ReadByte_cons _ _ _ Hp) as (r1 & HR & Hl).
  exists r1. split; [done|].
  cbn [Read_fuel]. unfold bind at 1. rewrite HR.
  by destruct (Ascii.eqb c ARRAY), (Ascii.eqb c BULK).
Qed.

Lemma Read_fuel_EOF fuel r :
  pending r = [] -> Read_fuel (S fuel) r = Done (Value0, Some EOF) r.
Proof.
  intros Hp. cbn [Read_fuel]. unfold bind. by rewrite ReadByte_nil.
Qed.

(** C6, as the code has it: when the first byte is neither ['*'] nor
    ['$'], [Read] consumes that byte and returns the zero [Value] with a
    nil error; no failure is reported. *)
Theorem C6_other_marker (r : rESP) (c : byte) (rest : bytes) :
  pending r = c :: rest ->
  c <> ARRAY ->
  c <> BULK ->
  exists r', Read r = Done (Value0, None) r' /\ pending r' = rest.
Proof.
  intros Hp Ha Hb. unfold Read.
  destruct (Read_fuel_marker (length (pending r)) r c rest Hp)
    as (r1 & Hl & ->).
  destruct (Ascii.eqb_spec c ARRAY); [done|].
  destruct (Ascii.eqb_spec c BULK); [done|].
  exists r1. split; [done | apply Hl].
Qed.

Lemma C6_witness :
  exists r', Read (newrESP (B "+OK" ++ [CR; LF])) = Done (Value0, None) r'
             /\ pending r' = B "OK" ++ [CR; LF].
Proof.
  apply (C6_other_marker (newrESP (B "+OK" ++ [CR; LF])) "+"%char).
  - reflexivity.
  - discriminate.
  - discriminate.
Defined.

(** C6, as stated, fails: on the stream [+OK\r\n] [Read] returns a value
    and a nil error. *)
Lemma C6_counterexample :
  Read (newrESP (B "+OK" ++ [CR; LF]))
  = Done (Value0, None) (mkrESP (B "OK" ++ [CR; LF]) [])
  /\ ~ (exists v e r',
          Read (newrESP (B "+OK" ++ [CR; LF])) = Done (v, Some e) r').
Proof.
  split; [reflexivity|]. intros (v & e & r' & H). discriminate.
Qed.


Lemma readBulk_negative r line c rest len :
  CR ∉ line ->
  ParseInt (string_of_list_ascii line) = (len, None) ->
  len < 0 ->
  pending r = line ++ CR :: c :: rest ->
  readBulk r = Panic.
Proof.
  intros Hl Hparse Hneg Hp.
  destruct (readInteger_spec r line c rest len Hl Hparse Hp)
    as (n & r' & HR & Hl').
  unfold readBulk, bind. rewrite HR.
  by destruct (Z.ltb_spec len 0); [|lia].
Qed.




(** C8 at the stream [ab\rcd\r\n]: the line ends at the [CR] that is
    followed by [c]; [readLine] returns [ab], and [d\r\n] stays pending. *)
Theorem C8_readLine_stops_at_bare_CR :
  readLine (newrESP (B "ab" ++ [CR] ++ B "cd" ++ [CR; LF]))
  = Done (B "ab", 4, None) (mkrESP (B "d" ++ [CR; LF]) []).
Proof. reflexivity. Qed.

(** ** Decoding an encoding

    The reader is [drained]: the whole input is in the buffer, so
    [bufio.Reader.Read] finds every byte it is asked for. *)

Lemma bufio_Read_drained p b :
  bufio_Read p (mkrESP b [])
  = Done (copy_into p (take (length p) b)) (mkrESP (drop (length p) b) []).
Proof.
  unfold bufio_Read, copy_into. destruct p as [|x p].
  - by rewrite take_0, drop_0.
  - destruct b as [|y b]; [|done].
    by rewrite take_nil, drop_nil.
Qed.

Lemma copy_into_full (data rest : bytes) (p : bytes) :
  length p = length data ->
  copy_into p (take (length p) (data ++ rest)) = data.
Proof.
  intros H. unfold copy_into. rewrite H, take_app_length.
  rewrite <- H, drop_all. apply app_nil_r.
Qed.

Lemma length_list_ascii_of_string s :
  length (list_ascii_of_string s) = String.length s.
Proof. induction s as [|c s IH]; simpl; congruence. Qed.

Lemma readBulk_drained (s : string) (rest : bytes) :
  Z.of_nat (String.length s) <= maxAlloc ->
  readBulk (mkrESP (B (Itoa (Z.of_nat (String.length s))) ++ CR :: LF ::
                    B s ++ CR :: LF :: rest) [])
  = Done (bulkV s, None) (mkrESP rest []).
Proof.
  intros Hlen. set (n := Z.of_nat (String.length s)) in *.
  unfold maxAlloc in Hlen.
  destruct (readInteger_spec
              (mkrESP (B (Itoa n) ++ CR :: LF :: B s ++ CR :: LF :: rest) [])
              (B (Itoa n)) LF (B s ++ CR :: LF :: rest) n)
    as (k & r1 & HR & Hl1).
  { apply Itoa_no_CR. lia. }
  { rewrite string_of_list_ascii_of_string. apply ParseInt_Itoa. lia. }
  { unfold pending. simpl. by rewrite app_nil_r. }
  apply leaves_drained in Hl1; [|done]. subst r1.
  unfold readBulk, bind. rewrite HR.
  destruct (Z.ltb_spec n 0); [lia|].
  destruct (Z.ltb_spec maxAlloc n); [unfold maxAlloc in *; lia|].
  cbn [orb].
  rewrite bufio_Read_drained.
  rewrite copy_into_full
    by (rewrite length_replicate, length_list_ascii_of_string; lia).
  rewrite length_replicate.
  replace (Z.to_nat n) with (length (B s))
    by (rewrite length_list_ascii_of_string; lia).
  rewrite drop_app_length.
  destruct (readLine_spec (mkrESP (CR :: LF :: rest) []) [] LF rest)
    as (k' & r2 & HR2 & Hl2).
  { inversion 1. }
  { unfold pending. simpl. by rewrite app_nil_r. }
  apply leaves_drained in Hl2; [|done]. subst r2.
  rewrite HR2. unfold ret, set_bulk. simpl.
  by rewrite string_of_list_ascii_of_string.
Qed.

Lemma readArray_loop_drained (Rd : M (Value * option error)) vs :
  forall fuel i acc tl,
  Forall (fun v => forall tl,
            Rd (mkrESP (Marshal v ++ tl) [])
            = Done (canon v, None) (mkrESP tl [])) vs ->
  (length vs <= fuel)%nat ->
  readArray_loop Rd fuel i (i + Z.of_nat (length vs)) (arrayV acc)
    (mkrESP (flat_map Marshal vs ++ tl) [])
  = Done (arrayV (acc ++ map canon vs), None) (mkrESP tl []).
Proof.
  induction vs as [|v vs IH]; intros fuel i acc tl Hvs Hf.
  - simpl. rewrite Z.add_0_r, app_nil_r.
    destruct fuel; cbn [readArray_loop]; by rewrite Z.ltb_irrefl.
  - destruct fuel as [|fuel]; [simpl in Hf; lia|].
    apply Forall_cons in Hvs as [Hv Hvs].
    cbn [readArray_loop].
    destruct (Z.ltb_spec i (i + Z.of_nat (length (v :: vs))));
      [|simpl in *; lia].
    unfold bind. cbn [flat_map]. rewrite <- app_assoc, Hv.
    unfold set_array. cbn [typ str num bulk array arrayV].
    fold (arrayV (acc ++ [canon v])).
    replace (i + Z.of_nat (length (v :: vs)))
      with ((i + 1) + Z.of_nat (length vs)) by (simpl length; lia).
    rewrite IH; [|done|simpl in Hf; lia].
    by rewrite <- app_assoc.
Qed.

Lemma readArray_drained (Rd : M (Value * option error)) fuel vs tl :
  Forall (fun v => forall tl,
            Rd (mkrESP (Marshal v ++ tl) [])
            = Done (canon v, None) (mkrESP tl [])) vs ->
  (length vs <= fuel)%nat ->
  Z.of_nat (length vs) < 2 ^ 63 ->
  readArray Rd fuel
    (mkrESP (B (Itoa (Z.of_nat (length vs))) ++ CR :: LF ::
             flat_map Marshal vs ++ tl) [])
  = Done (arrayV (map canon vs), None) (mkrESP tl []).
Proof.
  intros Hvs Hf Hlen. set (n := Z.of_nat (length vs)) in *.
  destruct (readInteger_spec
              (mkrESP (B (Itoa n) ++ CR :: LF :: flat_map Marshal vs ++ tl) [])
              (B (Itoa n)) LF (flat_map Marshal vs ++ tl) n)
    as (k & r1 & HR & Hl1).
  { apply Itoa_no_CR. lia. }
  { rewrite string_of_list_ascii_of_string. apply ParseInt_Itoa. lia. }
  { unfold pending. simpl. by rewrite app_nil_r. }
  apply leaves_drained in Hl1; [|done]. subst r1.
  unfold readArray, bind. rewrite HR.
  change (set_array (mkValue "array" "" 0 "" []) []) with (arrayV []).
  replace n with (0 + Z.of_nat (length vs)) by lia.
  by rewrite readArray_loop_drained.
Qed.

Lemma Marshal_array s n b a :
  Marshal (mkValue "array" s n b a)
  = ARRAY :: B (Itoa (Z.of_nat (length a))) ++ CR :: LF :: flat_map Marshal a.
Proof. reflexivity. Qed.

Lemma Marshal_bulk s n b a :
  Marshal (mkValue "bulk" s n b a)
  = BULK :: B (Itoa (Z.of_nat (String.length b))) ++ CR :: LF ::
            B b ++ [CR; LF].
Proof. reflexivity. Qed.

Lemma wire_cases v :
  wire v = true ->
  (typ v = "array" /\ Forall (fun x => wire x = true) (array v))
  \/ typ v = "bulk".
Proof.
  destruct v as [t s n b a]. simpl.
  destruct (String.eqb_spec t "array") as [->|_].
  - intros H. left. split; [done|]. apply Forall_forall. intros x Hx.
    apply list_elem_of_In in Hx.
    exact (proj1 (List.forallb_forall wire a) H x Hx).
  - intros H. right. by apply String.eqb_eq.
Qed.

Lemma wire_Marshal_length v :
  wire v = true -> (1 <= length (Marshal v))%nat.
Proof.
  intros H. destruct v as [t s n b a].
  destruct (wire_cases _ H) as [[Ht _]|Ht]; simpl in Ht; subst t.
  - rewrite Marshal_array. simpl. lia.
  - rewrite Marshal_bulk. simpl. lia.
Qed.

Lemma flat_map_Marshal_length_elem (vs : list Value) v :
  v ∈ vs -> (length (Marshal v) <= length (flat_map Marshal vs))%nat.
Proof.
  induction 1 as [v vs|v w vs _ IH]; simpl; rewrite length_app; lia.
Qed.

Lemma flat_map_Marshal_length_count (vs : list Value) :
  Forall (fun x => wire x = true) vs ->
  (length vs <= length (flat_map Marshal vs))%nat.
Proof.
  induction 1 as [|v vs Hv _ IH]; simpl; [lia|].
  rewrite length_app. apply wire_Marshal_length in Hv. lia.
Qed.

(** With the input in the buffer, [Read] gives back the value that was
    encoded: its variant and its content. *)
Lemma Read_fuel_Marshal v :
  wire v = true ->
  forall fuel tl,
  (length (Marshal v) <= fuel)%nat ->
  Z.of_nat (length (Marshal v)) <= maxAlloc ->
  Read_fuel fuel (mkrESP (Marshal v ++ tl) [])
  = Done (canon v, None) (mkrESP tl []).
Proof.
  induction v as [t s n b a IH] using Value_ind'.
  intros Hw fuel tl Hf Hsz. unfold maxAlloc in *.
  destruct (wire_cases _ Hw) as [[Ht Ha]|Ht]; cbn [typ array] in *; subst t.
  - assert (HL : length (Marshal (mkValue "array" s n b a))
                 = S (length (B (Itoa (Z.of_nat (length a))))
                      + (2 + length (flat_map Marshal a))))
      by (rewrite Marshal_array; simpl; rewrite length_app; simpl; lia).
    rewrite HL in Hf, Hsz. clear HL. rewrite Marshal_array.
    destruct fuel as [|fuel]; [lia|].
    destruct (Read_fuel_marker fuel
                (mkrESP ((ARRAY :: B (Itoa (Z.of_nat (length a))) ++
                          CR :: LF :: flat_map Marshal a) ++ tl) [])
                ARRAY
                (B (Itoa (Z.of_nat (length a))) ++
                 CR :: LF :: flat_map Marshal a ++ tl))
      as (r1 & Hl1 & ->).
    { unfold pending. simpl. rewrite app_nil_r, <- app_assoc. reflexivity. }
    apply leaves_drained in Hl1; [|done]. subst r1.
    change (Ascii.eqb ARRAY ARRAY) with true. cbv iota.
    pose proof (flat_map_Marshal_length_count a Ha) as Hcount.
    rewrite readArray_drained; [reflexivity| |lia|lia].
    rewrite Forall_forall in IH, Ha. apply Forall_forall. intros x Hx tl'.
    pose proof (flat_map_Marshal_length_elem a x Hx).
    apply IH; [done|by apply Ha|lia|lia].
  - assert (HL : length (Marshal (mkValue "bulk" s n b a))
                 = S (length (B (Itoa (Z.of_nat (String.length b))))
                      + (2 + (String.length b + 2))))
      by (rewrite Marshal_bulk; cbn [length]; rewrite !length_app;
          cbn [length]; rewrite !length_app, (length_list_ascii_of_string b);
          cbn [length]; lia).
    rewrite HL in Hf, Hsz. clear HL. rewrite Marshal_bulk.
    destruct fuel as [|fuel]; [lia|].
    destruct (Read_fuel_marker fuel
                (mkrESP ((BULK :: B (Itoa (Z.of_nat (String.length b))) ++
                          CR :: LF :: B b ++ [CR; LF]) ++ tl) [])
                BULK
                (B (Itoa (Z.of_nat (String.length b))) ++
                 CR :: LF :: B b ++ CR :: LF :: tl))
      as (r1 & Hl1 & ->).
    { unfold pending. simpl. rewrite app_nil_r, <- app_assoc. simpl.
      by rewrite <- app_assoc. }
    apply leaves_drained in Hl1; [|done]. subst r1.
    change (Ascii.eqb BULK ARRAY) with false.
    change (Ascii.eqb BULK BULK) with true. cbv iota.
    rewrite readBulk_drained by (unfold maxAlloc; lia). reflexivity.
Qed.

(** An input that fits the buffer is all in the buffer after the first
    [fill]. *)
Lemma ReadByte_fits (s : bytes) :
  (length s <= defaultBufSize)%nat ->
  ReadByte (newrESP s) = ReadByte (mkrESP s []).
Proof.
  intros H. unfold ReadByte, newrESP, fill. cbn [buf rd].
  rewrite take_ge, drop_ge by done. by destruct s.
Qed.

Lemma Read_fuel_fits fuel (s : bytes) :
  (length s <= defaultBufSize)%nat ->
  Read_fuel fuel (newrESP s) = Read_fuel fuel (mkrESP s []).
Proof.
  intros H. destruct fuel as [|fuel]; [done|].
  cbn [Read_fuel]. unfold bind. by rewrite ReadByte_fits.
Qed.

Lemma canon_idem v : canon (canon v) = canon v.
Proof.
  induction v as [t s n b a IH] using Value_ind'. cbn [canon].
  destruct (String.eqb_spec t "array") as [->|Harr].
  - simpl. unfold arrayV. f_equal. rewrite map_map.
    apply map_ext_Forall. exact IH.
  - apply String.eqb_neq in Harr.
    destruct (String.eqb t "bulk") eqn:Hb; [done|].
    destruct (String.eqb t "string") eqn:Hs; [done|].
    destruct (String.eqb t "error") eqn:He; [done|].
    destruct (String.eqb t "null") eqn:Hn; [done|].
    cbn [canon]. by rewrite Harr, Hb, Hs, He, Hn.
Qed.

Lemma Read_Marshal_drained v tl :
  wire v = true ->
  (length (Marshal v ++ tl) <= defaultBufSize)%nat ->
  Read (mkrESP (Marshal v ++ tl) []) = Done (canon v, None) (mkrESP tl []).
Proof.
  intros Hw Hsz. unfold Read, pending. cbn [buf rd].
  rewrite length_app in *. unfold defaultBufSize in Hsz.
  apply Read_fuel_Marshal;
    [done|rewrite length_app; lia|unfold maxAlloc; lia].
Qed.

Lemma Read_fits (s : bytes) :
  (length s <= defaultBufSize)%nat ->
  Read (newrESP s) = Read (mkrESP s []).
Proof.
  intros H. unfold Read, pending, newrESP. cbn [buf rd].
  rewrite app_nil_r. by apply Read_fuel_fits.
Qed.

Lemma canon_request ws : canon (request ws) = request ws.
Proof.
  unfold request. cbn [canon arrayV]. change (String.eqb "array" "array") with true.
  cbv iota. f_equal. rewrite map_map. by apply map_ext.
Qed.

(** C1, as the code has it: for a value made of bulk strings and arrays
    only, whose encoding fits the reader's buffer of 4096 bytes, decoding
    the encoding returns, without error and with nothing left over, a
    value of the same variant, the same content and the same order of
    elements. *)
Theorem C1_roundtrip_bulk_and_array (v : Value) :
  wire v = true ->
  (length (Marshal v) <= defaultBufSize)%nat ->
  Read (newrESP (Marshal v)) = Done (canon v, None) (mkrESP [] [])
  /\ equivalent (canon v) v.
Proof.
  intros Hw Hsz. split; [|apply canon_idem].
  rewrite Read_fits by done.
  rewrite <- (app_nil_r (Marshal v)) at 1.
  apply Read_Marshal_drained; [done|]. by rewrite app_nil_r.
Qed.

Lemma C1_witness :
  Read (newrESP (Marshal (request ["SET"; "k"; "v"])))
  = Done (request ["SET"; "k"; "v"], None) (mkrESP [] []).
Proof.
  destruct (C1_roundtrip_bulk_and_array (request ["SET"; "k"; "v"]))
    as [H _].
  - reflexivity.
  - apply Nat.leb_le. vm_compute. reflexivity.
  - exact H.
Defined.

(** C1, as stated, fails: a simple string and an error value are not
    decoded at all ([Read] returns the zero [Value] after the marker
    byte), a value with an integer in [num] has the empty encoding
    whatever its [typ] says, and a bulk string of 4096 bytes comes back
    with its last 7 bytes replaced by zero bytes. *)
Lemma C1_counterexample :
  (Read (newrESP (Marshal (stringV "OK")))
     = Done (Value0, None) (mkrESP (B "OK" ++ [CR; LF]) [])
   /\ ~ equivalent Value0 (stringV "OK"))
  /\ (Read (newrESP (Marshal (errorV "ERR")))
        = Done (Value0, None) (mkrESP (B "ERR" ++ [CR; LF]) [])
      /\ ~ equivalent Value0 (errorV "ERR"))
  /\ (Marshal (mkValue "integer" "" 5 "" []) = []
      /\ Read (newrESP (Marshal (mkValue "integer" "" 5 "" [])))
         = Done (Value0, Some EOF) (mkrESP [] []))
  /\ (let v := bulkV (string_of_list_ascii (replicate 4096 "a"%char)) in
      let w := bulkV (string_of_list_ascii
                        (replicate 4089 "a"%char ++ replicate 7 NUL)) in
      Read (newrESP (Marshal v)) = Done (w, None) (mkrESP [] [])
      /\ ~ equivalent w v).
Proof.
  split; [split; [reflexivity | discriminate]|].
  split; [split; [reflexivity | discriminate]|].
  split; [split; reflexivity|].
  split; [vm_compute; reflexivity|].
  unfold equivalent. intros H.
  apply (f_equal (fun x => String.get 4089 (bulk x))) in H.
  vm_compute in H. discriminate.
Qed.

(** ** Replaying the append-only file *)

(** C2 at the request [SET key gostore!] served 114 times: live, the
    store maps [key] to [gostore!], and the file holds the 114 encodings,
    4104 bytes.  On replay the reader's buffer takes the first 4096 bytes,
    which end two bytes into the value of the last request; the [Read]
    for that value copies the two bytes that are buffered and leaves the
    other six bytes of the slice zero, and the line read that follows
    swallows the rest.  The replayed store maps [key] to [go] and six zero
    bytes. *)
Theorem C2_replay_past_buffer :
  let live := serve_all map_to_list ToUpper_ascii busy_session fresh in
  let replayed := string_of_list_ascii (B "go" ++ replicate 6 NUL) in
  aof live = flat_map Marshal busy_session
  /\ length (aof live) = 4104%nat
  /\ store live = mkStore {["key" := "gostore!"]} ∅
  /\ startup map_to_list ToUpper_ascii (aof live)
     = Done (mkStore {["key" := replayed]} ∅, None) (mkrESP [] [])
  /\ mkStore {["key" := replayed]} ∅ <> store live.
Proof.
  split; [vm_compute; reflexivity|]. split; [vm_compute; reflexivity|].
  split; [vm_compute; reflexivity|]. split; [vm_compute; reflexivity|].
  intros H.
  apply (f_equal (fun st => SETs st !! "key")) in H.
  vm_compute in H. discriminate.
Qed.

(** While the whole file fits the reader's buffer, replay rebuilds the
    store that the live requests produced. *)

Section ReplayFacts.

Variable range : gmap string string -> list (string * string).
Variable ToUpper : string -> string.

Lemma exec_not_write ws st :
  is_write ToUpper ws = false -> exec range ToUpper ws st = st.
Proof.
  destruct ws as [|w args]; [done|]. unfold is_write, exec.
  intros Hw. apply orb_false_elim in Hw as [Hset Hhset].
  apply String.eqb_neq in Hset, Hhset.
  destruct (Handlers range !! ToUpper w) as [h|] eqn:Hh; [|done].
  apply Handlers_lookup in Hh
    as [[_ ->]|[[? _]|[[_ ->]|[[? _]|[[_ ->]|[_ ->]]]]]]; try done.
  - unfold ping. by case_match.
  - unfold get. by repeat case_match.
  - unfold hget. by repeat case_match.
  - unfold hgetall. by repeat case_match.
Qed.

Lemma serve_request ws s :
  store (serve range ToUpper (request ws) s) = exec range ToUpper ws (store s)
  /\ aof (serve range ToUpper (request ws) s)
     = aof s ++ (if is_write ToUpper ws then Marshal (request ws) else []).
Proof.
  destruct ws as [|w args].
  - simpl. by rewrite app_nil_r.
  - rewrite serve_dispatch by done.
    change (bulk (arg (array (request (w :: args))) 0)) with w.
    change (drop 1 (array (request (w :: args)))) with (map bulkV args).
    unfold exec, is_write. cbv zeta.
    destruct (Handlers range !! ToUpper w) as [h|] eqn:Hh.
    + destruct (String.eqb (ToUpper w) "SET" || String.eqb (ToUpper w) "HSET");
        simpl; destruct (h (map bulkV args) (store s)); simpl;
        by rewrite ?app_nil_r.
    + destruct (String.eqb_spec (ToUpper w) "SET") as [He|_];
        [by rewrite He, Handlers_SET in Hh|].
      destruct (String.eqb_spec (ToUpper w) "HSET") as [He|_];
        [by rewrite He, Handlers_HSET in Hh|].
      simpl. by rewrite app_nil_r.
Qed.

Lemma serve_all_requests wss : forall s,
  store (serve_all range ToUpper (map request wss) s)
    = foldl (fun st ws => exec range ToUpper ws st) (store s)
            (filter (fun ws => is_write ToUpper ws = true) wss)
  /\ aof (serve_all range ToUpper (map request wss) s)
     = aof s ++ flat_map Marshal
                  (map request
                     (filter (fun ws => is_write ToUpper ws = true) wss)).
Proof.
  unfold serve_all.
  induction wss as [|ws wss IH]; intros s; cbn [map foldl].
  - simpl. by rewrite app_nil_r.
  - destruct (IH (serve range ToUpper (request ws) s)) as [-> ->].
    destruct (serve_request ws s) as [-> ->].
    rewrite filter_cons. destruct (is_write ToUpper ws) eqn:Hw.
    + rewrite decide_True by done. cbn [map foldl flat_map].
      by rewrite <- app_assoc.
    + rewrite decide_False by done.
      by rewrite exec_not_write, app_nil_r.
Qed.

Lemma replay_request ws st :
  ws <> [] ->
  replay range ToUpper (request ws) st = Some (exec range ToUpper ws st).
Proof.
  destruct ws as [|w args]; [done|]. intros _. unfold replay, exec.
  change (array (request (w :: args))) with (bulkV w :: map bulkV args).
  cbv zeta. change (bulk (arg (bulkV w :: map bulkV args) 0)) with w.
  change (drop 1 (bulkV w :: map bulkV args)) with (map bulkV args).
  by destruct (Handlers range !! ToUpper w).
Qed.

Lemma wire_request ws : wire (request ws) = true.
Proof.
  unfold request. cbn [wire arrayV].
  change (String.eqb "array" "array") with true. cbv iota.
  by induction ws.
Qed.

Lemma Aof_Read_loop_drained wss : forall fuel st,
  Forall (fun ws => ws <> []) wss ->
  (length wss < fuel)%nat ->
  (length (flat_map Marshal (map request wss)) <= defaultBufSize)%nat ->
  Aof_Read_loop fuel (replay range ToUpper) st
    (mkrESP (flat_map Marshal (map request wss)) [])
  = Done (foldl (fun st ws => exec range ToUpper ws st) st wss, None)
         (mkrESP [] []).
Proof.
  induction wss as [|ws wss IH]; intros fuel st Hne Hf Hsz;
    (destruct fuel as [|fuel]; [simpl in Hf; lia|]).
  - reflexivity.
  - apply Forall_cons in Hne as [Hws Hne]. cbn [map flat_map] in *.
    cbn [Aof_Read_loop]. unfold bind.
    rewrite Read_Marshal_drained by (done || apply wire_request).
    rewrite canon_request, replay_request by done.
    cbn [foldl]. apply IH; [done|simpl in Hf; lia|].
    rewrite length_app in Hsz. lia.
Qed.

Lemma Aof_Read_loop_fits fuel fn st (file : bytes) :
  (length file <= defaultBufSize)%nat ->
  Aof_Read_loop fuel fn st (newrESP file)
  = Aof_Read_loop fuel fn st (mkrESP file []).
Proof.
  intros H. destruct fuel as [|fuel]; [done|].
  cbn [Aof_Read_loop]. unfold bind. by rewrite Read_fits.
Qed.

(** X18: requests (arrays of bulk strings, any commands) served from a
    fresh start; if the file they leave fits the reader's buffer, replaying
    it ends at [io.EOF] with the store of the live server. *)
Theorem replay_small_log (wss : list (list string)) :
  let live := serve_all range ToUpper (map request wss) fresh in
  (length (aof live) <= defaultBufSize)%nat ->
  startup range ToUpper (aof live) = Done (store live, None) (mkrESP [] []).
Proof.
  intros live Hsz. subst live.
  destruct (serve_all_requests wss fresh) as [Hst Haof].
  rewrite Hst, Haof in *. cbn [fresh aof store app] in *.
  set (ws' := filter (fun ws => is_write ToUpper ws = true) wss) in *.
  assert (Hne : Forall (fun ws => ws <> []) ws').
  { apply Forall_forall. intros ws Hin ->.
    apply list_elem_of_filter in Hin as [Hw _]. discriminate. }
  unfold startup, Aof_Read. rewrite Aof_Read_loop_fits by done.
  apply Aof_Read_loop_drained; [done| |done].
  assert (length ws' <= length (flat_map Marshal (map request ws')))%nat;
    [|lia].
  rewrite <- (length_map request ws').
  apply flat_map_Marshal_length_count, Forall_forall.
  intros v Hv. apply list_elem_of_fmap in Hv as (ws & -> & _).
  apply wire_request.
Qed.

End ReplayFacts.

(** ** The rounds that the loops are given are enough

    No operation ends in [OutOfFuel]: every result is a return or a
    panic. *)

Lemma advances_settles {A} r (x : res (A * option error)) :
  advances r x -> settles r x.
Proof. destruct x as [[a [e|]] r'| |]; simpl; lia. Qed.

Lemma ReadByte_advances r : advances r (ReadByte r).
Proof.
  destruct r as [b s].
  unfold ReadByte, advances, size, pending, fill. cbn [buf rd].
  destruct b as [|c b]; [|cbn [buf rd app length]; lia].
  destruct (take defaultBufSize s) as [|c b] eqn:Ht;
    [cbn [buf rd app length]; lia|].
  cbn [buf rd app]. rewrite <- (take_drop defaultBufSize s) at 2.
  rewrite Ht. cbn [app length]. rewrite !length_app. lia.
Qed.

Lemma bufio_Read_settles p r : settles r (bufio_Read p r).
Proof.
  destruct r as [b s]. unfold bufio_Read, settles, size, pending, fill.
  cbn [buf rd]. destruct p as [|x p]; [cbn [buf rd]; lia|].
  destruct b as [|c b].
  - destruct s as [|c s]; [cbn [buf rd]; lia|].
    destruct (defaultBufSize <=? length (x :: p))%nat; cbn [buf rd app].
    + rewrite length_drop. lia.
    + rewrite length_app, !length_drop, length_take. lia.
  - cbn [buf rd]. rewrite !length_app, length_drop. lia.
Qed.

Lemma bind_settles {A B} (m : M A) (k : A -> M B) r :
  settles r (m r) ->
  (forall a r', (size r' <= size r)%nat -> settles r' (k a r')) ->
  settles r (bind m k r).
Proof.
  unfold bind. destruct (m r) as [a r'| |]; simpl; [|done..].
  intros Hr Hk. specialize (Hk a r' Hr).
  destruct (k a r'); simpl in *; [lia|done..].
Qed.

Lemma readLine_loop_settles fuel : forall line n r,
  (size r < fuel)%nat -> settles r (readLine_loop fuel line n r).
Proof.
  induction fuel as [|fuel IH]; intros line n r Hf; [lia|].
  cbn [readLine_loop]. unfold bind.
  pose proof (ReadByte_advances r) as Hb.
  destruct (ReadByte r) as [[b [e|]] r'| |]; simpl in Hb;
    [simpl; lia| |done..].
  destruct (line_ended _).
  - simpl. lia.
  - specialize (IH (line ++ [b]) (wrap_int (n + 1)) r' ltac:(lia)).
    destruct (readLine_loop _ _ _ r'); simpl in *; [lia|done..].
Qed.

Lemma readLine_settles r : settles r (readLine r).
Proof. apply readLine_loop_settles. unfold size. lia. Qed.

Lemma readInteger_settles r : settles r (readInteger r).
Proof.
  unfold readInteger. apply bind_settles; [apply readLine_settles|].
  intros [[line n] [e|]] r' Hr; [simpl; lia|].
  destruct (ParseInt _) as [i64 [e|]]; simpl; lia.
Qed.

Lemma readBulk_settles r : settles r (readBulk r).
Proof.
  unfold readBulk. apply bind_settles; [apply readInteger_settles|].
  intros [[len n] [e|]] r1 Hr1; [simpl; lia|].
  destruct ((len <? 0) || (maxAlloc <? len)); [done|].
  apply bind_settles; [apply bufio_Read_settles|].
  intros p r2 Hr2.
  apply bind_settles; [apply readLine_settles|].
  intros x r3 Hr3. simpl. lia.
Qed.

Lemma readArray_loop_settles (Rd : M (Value * option error)) bound :
  (forall r, (size r < bound)%nat -> advances r (Rd r)) ->
  forall fuel i len v r,
  (size r < fuel)%nat -> (size r < bound)%nat ->
  settles r (readArray_loop Rd fuel i len v r).
Proof.
  intros HRd. induction fuel as [|fuel IH]; intros i len v r Hf Hb; [lia|].
  cbn [readArray_loop]. destruct (i <? len); [|simpl; lia].
  unfold bind. specialize (HRd r Hb).
  destruct (Rd r) as [[val [e|]] r'| |]; simpl in HRd;
    [simpl; lia| |done..].
  specialize (IH (i + 1) len (set_array v (array v ++ [val])) r'
                ltac:(lia) ltac:(lia)).
  destruct (readArray_loop _ _ _ _ _ r'); simpl in *; [lia|done..].
Qed.

Lemma Read_fuel_advances fuel : forall r,
  (size r < fuel)%nat -> advances r (Read_fuel fuel r).
Proof.
  induction fuel as [|fuel IH]; intros r Hf; [lia|].
  cbn [Read_fuel]. unfold bind at 1.
  pose proof (ReadByte_advances r) as Hb.
  destruct (ReadByte r) as [[c [e|]] r1| |]; simpl in Hb;
    [simpl; lia| |done..].
  destruct (Ascii.eqb c ARRAY); [|destruct (Ascii.eqb c BULK)].
  - assert (Hs : settles r1 (readArray (Read_fuel fuel) fuel r1)).
    { unfold readArray. apply bind_settles; [apply readInteger_settles|].
      intros [[len n] [e|]] r2 Hr2; [simpl; lia|].
      apply (readArray_loop_settles _ fuel IH); lia. }
    destruct (readArray _ _ r1) as [[v [e|]] r'| |]; simpl in *; lia || done.
  - pose proof (readBulk_settles r1) as Hs.
    destruct (readBulk r1) as [[v [e|]] r'| |]; simpl in *; lia || done.
  - simpl. lia.
Qed.

(** [Read] returns or panics, and a return without error has consumed at
    least one byte. *)
Theorem Read_advances r : advances r (Read r).
Proof. apply Read_fuel_advances. unfold size. lia. Qed.

Lemma Aof_Read_loop_settles fn fuel : forall st r,
  (size r < fuel)%nat -> settles r (Aof_Read_loop fuel fn st r).
Proof.
  induction fuel as [|fuel IH]; intros st r Hf; [lia|].
  cbn [Aof_Read_loop]. unfold bind.
  pose proof (Read_advances r) as Hr.
  destruct (Read r) as [[v [e|]] r'| |]; simpl in Hr;
    [destruct e; simpl; lia| |done..].
  destruct (fn v st) as [st'|]; [|done].
  specialize (IH st' r' ltac:(lia)).
  destruct (Aof_Read_loop _ _ _ r'); simpl in *; [lia|done..].
Qed.

(** [Aof.Read] returns or panics on every file. *)
Theorem Aof_Read_total file fn st : Aof_Read file fn st <> OutOfFuel.
Proof.
  unfold Aof_Read.
  pose proof (Aof_Read_loop_settles fn (S (length file)) st (newrESP file))
    as H.
  intros Heq. rewrite Heq in H. apply H.
  unfold size, pending, newrESP. simpl. lia.
Qed.

Corollary Read_total r : Read r <> OutOfFuel.
Proof.
  pose proof (Read_advances r) as H. intros Heq. by rewrite Heq in H.
Qed.

Lemma Marshal_marshalArray v :
  typ v = "array" -> Marshal v = marshalArray v.
Proof. destruct v as [t s n b a]. simpl. by intros ->. Qed.

(** * Further properties of the codec *)

Lemma wrap_int_small z : - 2 ^ 63 <= z < 2 ^ 63 -> wrap_int z = z.
Proof. intros H. unfold wrap_int. rewrite Z.mod_small; lia. Qed.

Lemma readLine_loop_count l : forall fuel acc n r c rest,
  CR ∉ acc -> CR ∉ l ->
  pending r = l ++ CR :: c :: rest ->
  (length l + 2 <= fuel)%nat ->
  0 <= n -> n + Z.of_nat (length l) + 2 < 2 ^ 63 ->
  exists r',
    readLine_loop fuel acc n r
    = Done (acc ++ l, n + Z.of_nat (length l) + 2, None) r'
    /\ pending r' = rest.
Proof.
  induction l as [|x l IH]; intros fuel acc n r c rest Hacc Hl Hp Hf Hn Hb.
  - simpl in Hp. destruct fuel as [|[|fuel]]; [simpl in Hf; lia..|].
    destruct (ReadByte_cons _ _ _ Hp) as (r1 & HR1 & Hl1).
    destruct (ReadByte_cons _ _ _ (proj1 Hl1)) as (r2 & HR2 & Hl2).
    cbn [readLine_loop]. unfold bind at 1. rewrite HR1.
    rewrite line_ended_no_CR by done.
    cbn [readLine_loop]. unfold bind at 1. rewrite HR2.
    replace ((acc ++ [CR]) ++ [c]) with (acc ++ [CR; c])
      by (by rewrite <- app_assoc).
    rewrite line_ended_CR. cbn [length] in *.
    rewrite !wrap_int_small by (rewrite ?wrap_int_small; lia).
    unfold ret. eexists. split; [|apply Hl2].
    rewrite length_app. change (length [CR; c]) with 2%nat.
    replace (length acc + 2 - 2)%nat with (length acc) by lia.
    rewrite take_app_length, app_nil_r. do 2 f_equal. f_equal. lia.
  - simpl in Hp. destruct fuel as [|fuel]; [simpl in Hf; lia|].
    destruct (ReadByte_cons _ _ _ Hp) as (r1 & HR1 & Hl1).
    cbn [readLine_loop]. unfold bind at 1. rewrite HR1.
    rewrite line_ended_no_CR by done.
    cbn [length] in Hb. rewrite wrap_int_small by lia.
    destruct (IH fuel (acc ++ [x]) (n + 1) r1 c rest) as (r' & HR & Hl').
    + intros H. apply elem_of_app in H as [H|H]; [done|].
      apply list_elem_of_singleton in H. subst x. apply Hl. left.
    + intros H. apply Hl. by right.
    + apply Hl1.
    + simpl in Hf. lia.
    + lia.
    + lia.
    + exists r'. rewrite HR. rewrite <- app_assoc. split; [|done].
      do 2 f_equal. f_equal. cbn [length]. lia.
Qed.

(** X1: when the pending bytes are a run without [CR], then [CR], then
    one more byte (whichever), [readLine] returns the run, the number of
    bytes it consumed (the run and the two bytes after it) and no error,
    and what followed stays pending. *)
Theorem X1_readLine_line (r : rESP) (line : bytes) (c : byte) (rest : bytes) :
  CR ∉ line ->
  pending r = line ++ CR :: c :: rest ->
  Z.of_nat (length line) + 2 < 2 ^ 63 ->
  exists r',
    readLine r = Done (line, Z.of_nat (length line) + 2, None) r'
    /\ pending r' = rest.
Proof.
  intros Hl Hp Hb. unfold readLine.
  destruct (readLine_loop_count line (S (length (pending r))) [] 0 r c rest)
    as (r' & HR & Hr').
  - inversion 1.
  - exact Hl.
  - exact Hp.
  - rewrite Hp, length_app. simpl. lia.
  - lia.
  - lia.
  - exists r'. split; [exact HR | exact Hr'].
Qed.

Lemma X1_witness :
  exists r',
    readLine (newrESP (B "12" ++ [CR; LF] ++ B "rest"))
    = Done (B "12", 4, None) r'
    /\ pending r' = B "rest".
Proof.
  apply (X1_readLine_line (newrESP (B "12" ++ [CR; LF] ++ B "rest"))
           (B "12") LF (B "rest")).
  - apply (bool_decide_unpack _). vm_compute. exact I.
  - reflexivity.
  - simpl. lia.
Defined.

Lemma readLine_loop_EOF s : forall fuel acc n r,
  pending r = s ->
  (s <> [] -> CR ∉ acc) ->
  CR ∉ take (length s - 1) s ->
  (length s < fuel)%nat ->
  exists r',
    readLine_loop fuel acc n r = Done ([], 0, Some EOF) r'
    /\ pending r' = [].
Proof.
  induction s as [|x s IH]; intros fuel acc n r Hp Hacc Hs Hf;
    (destruct fuel as [|fuel]; [simpl in Hf; lia|]).
  - cbn [readLine_loop]. unfold bind. rewrite ReadByte_nil by done.
    exists r. by split.
  - destruct (ReadByte_cons _ _ _ Hp) as (r1 & HR1 & Hl1).
    cbn [readLine_loop]. unfold bind at 1. rewrite HR1.
    rewrite line_ended_no_CR by (by apply Hacc).
    apply (IH fuel (acc ++ [x]) (wrap_int (n + 1)) r1).
    + apply Hl1.
    + intros Hne Hin. destruct s as [|y s]; [done|].
      apply elem_of_app in Hin as [Hin|Hin]; [by apply Hacc|].
      apply list_elem_of_singleton in Hin. subst x.
      apply Hs. simpl. left.
    + destruct s as [|y s]; [simpl; inversion 1|].
      intros Hin. apply Hs. cbn [length] in *.
      replace (S (S (length s)) - 1)%nat with (S (S (length s) - 1)) by lia.
      cbn [take]. by right.
    + simpl in Hf. lia.
Qed.

(** X2: when the stream runs out before the loop's test for the end of
    the line holds (no [CR] among the pending bytes, save perhaps the very
    last one), [readLine] consumes every pending byte and returns the nil
    line, the count 0 and [io.EOF]: what it had read is dropped. *)
Theorem X2_readLine_EOF (r : rESP) :
  CR ∉ take (length (pending r) - 1) (pending r) ->
  exists r',
    readLine r = Done ([], 0, Some EOF) r' /\ pending r' = [].
Proof.
  intros H. unfold readLine.
  apply (readLine_loop_EOF (pending r)).
  - reflexivity.
  - intros _. inversion 1.
  - exact H.
  - lia.
Qed.

Lemma X2_witness :
  exists r',
    readLine (newrESP (B "12" ++ [CR])) = Done ([], 0, Some EOF) r'
    /\ pending r' = [].
Proof.
  apply (X2_readLine_EOF (newrESP (B "12" ++ [CR]))).
  apply (bool_decide_unpack _). vm_compute. exact I.
Defined.

(** X3: [readInteger] reads back the length line that [marshalBulk] and
    [marshalArray] write: after the decimal digits of [strconv.Itoa(n)]
    and [\r\n], for a length [n] of the [int] range, it returns [n]
    without error and leaves what followed pending. *)
Theorem X3_readInteger_Itoa (r : rESP) (n : Z) (rest : bytes) :
  0 <= n < 2 ^ 63 ->
  pending r = B (Itoa n) ++ CR :: LF :: rest ->
  exists k r',
    readInteger r = Done (n, k, None) r' /\ pending r' = rest.
Proof.
  intros Hn Hp.
  destruct (readInteger_spec r (B (Itoa n)) LF rest n) as (k & r' & HR & Hl).
  - apply Itoa_no_CR. lia.
  - rewrite string_of_list_ascii_of_string. by apply ParseInt_Itoa.
  - exact Hp.
  - exists k, r'. split; [exact HR | apply Hl].
Qed.

Lemma X3_witness :
  exists k r',
    readInteger (newrESP (B (Itoa 4096) ++ CR :: LF :: B "x"))
    = Done (4096, k, None) r'
    /\ pending r' = B "x".
Proof.
  apply (X3_readInteger_Itoa (newrESP (B (Itoa 4096) ++ CR :: LF :: B "x"))
           4096 (B "x")).
  - lia.
  - reflexivity.
Defined.

Lemma parse_digits_error s : forall n m e,
  parse_digits n s = (m, Some e) -> e <> EOF.
Proof.
  induction s as [|c s IH]; intros n m e H; [done|].
  cbn [parse_digits] in H. destruct (is_digit c); [|congruence].
  destruct (maxUint64 <? n * 10 + digit_val c); [congruence|]. by eapply IH.
Qed.

(** [strconv.ParseInt] fails with a [NumError], never with [io.EOF]. *)
Lemma ParseInt_error s m e : ParseInt s = (m, Some e) -> e <> EOF.
Proof.
  destruct s as [|c0 s1]; [cbn; congruence|]. unfold ParseInt.
  set (s' := if Ascii.eqb c0 "+" || Ascii.eqb c0 "-"
             then s1 else String c0 s1).
  destruct (ParseUint s') as [un [e'|]] eqn:Hu.
  - assert (e' <> EOF).
    { unfold ParseUint in Hu. destruct s'; [congruence|].
      by eapply parse_digits_error. }
    destruct e'; [done| |]; repeat case_match; congruence.
  - repeat case_match; congruence.
Qed.

Lemma readInteger_error r line c rest m e :
  CR ∉ line ->
  ParseInt (string_of_list_ascii line) = (m, Some e) ->
  pending r = line ++ CR :: c :: rest ->
  exists n r', readInteger r = Done (0, n, Some e) r' /\ leaves r rest r'.
Proof.
  intros Hl Hparse Hp.
  destruct (readLine_spec r line c rest Hl Hp) as (n & r' & HR & Hl').
  exists n, r'. split; [|done].
  unfold readInteger, bind. rewrite HR. by rewrite Hparse.
Qed.

(** X4: when the file starts with ['*'] or ['$'] and a length line that
    [strconv.ParseInt] rejects, [Aof.Read] returns that error (it is not
    [io.EOF]) without calling the callback; the bytes after the line are
    not read. *)
Theorem X4_Aof_Read_bad_length (marker : byte) (line : bytes) (c : byte)
  (rest : bytes) (m : Z) (e : error)
  (fn : Value -> Store -> option Store) (st : Store) :
  marker = ARRAY \/ marker = BULK ->
  CR ∉ line ->
  ParseInt (string_of_list_ascii line) = (m, Some e) ->
  exists r',
    Aof_Read (marker :: line ++ CR :: c :: rest) fn st = Done (st, Some e) r'
    /\ pending r' = rest
    /\ e <> EOF.
Proof.
  intros Hm Hl Hparse.
  pose proof (ParseInt_error _ _ _ Hparse) as He.
  unfold Aof_Read. set (file := marker :: line ++ CR :: c :: rest).
  cbn [Aof_Read_loop]. unfold bind at 1. unfold Read.
  destruct (Read_fuel_marker (length (pending (newrESP file)))
              (newrESP file) marker (line ++ CR :: c :: rest))
    as (r1 & Hl1 & ->); [reflexivity|].
  destruct (readInteger_error r1 line c rest m e Hl Hparse (proj1 Hl1))
    as (n & r' & HR & Hl').
  exists r'. split; [|split; [apply Hl' | exact He]].
  destruct Hm as [-> | ->].
  - change (Ascii.eqb ARRAY ARRAY) with true. cbv iota.
    unfold readArray, bind. rewrite HR. unfold ret. by destruct e.
  - change (Ascii.eqb BULK ARRAY) with false.
    change (Ascii.eqb BULK BULK) with true. cbv iota.
    unfold readBulk, bind. rewrite HR. unfold ret. by destruct e.
Qed.

Lemma X4_witness :
  exists r',
    Aof_Read (ARRAY :: B "3x" ++ CR :: LF :: B "$3") (fun _ _ => None)
             empty_Store
    = Done (empty_Store, Some ErrSyntax) r'
    /\ pending r' = B "$3"
    /\ ErrSyntax <> EOF.
Proof.
  apply (X4_Aof_Read_bad_length ARRAY (B "3x") LF (B "$3") 0 ErrSyntax).
  - by left.
  - apply (bool_decide_unpack _). vm_compute. exact I.
  - reflexivity.
Defined.

(** X5: a bulk string whose payload is cut short by the end of the input
    is not an error: with fewer bytes than the announced [k] left, [Read]
    returns a bulk value of [k] bytes, the bytes that were there followed
    by zero bytes, and a nil error. *)
Theorem X5_Read_bulk_cut_short (k : nat) (data : bytes) :
  (length data < k)%nat ->
  Z.of_nat k <= maxAlloc ->
  (length (BULK :: B (Itoa (Z.of_nat k)) ++ CR :: LF :: data)
   <= defaultBufSize)%nat ->
  Read (newrESP (BULK :: B (Itoa (Z.of_nat k)) ++ CR :: LF :: data))
  = Done (bulkV (string_of_list_ascii
                   (data ++ replicate (k - length data) NUL)), None)
         (mkrESP [] []).
Proof.
  intros Hk Hmax Hsz. unfold maxAlloc in Hmax.
  rewrite Read_fits by done. unfold Read.
  destruct (Read_fuel_marker
              (length (pending (mkrESP (BULK :: B (Itoa (Z.of_nat k)) ++
                                        CR :: LF :: data) [])))
              (mkrESP (BULK :: B (Itoa (Z.of_nat k)) ++ CR :: LF :: data) [])
              BULK (B (Itoa (Z.of_nat k)) ++ CR :: LF :: data))
    as (r1 & Hl1 & ->).
  { unfold pending. simpl. by rewrite app_nil_r. }
  apply leaves_drained in Hl1; [|done]. subst r1.
  change (Ascii.eqb BULK ARRAY) with false.
  change (Ascii.eqb BULK BULK) with true. cbv iota.
  destruct (readInteger_spec
              (mkrESP (B (Itoa (Z.of_nat k)) ++ CR :: LF :: data) [])
              (B (Itoa (Z.of_nat k))) LF data (Z.of_nat k))
    as (n & r2 & HR & Hl2).
  { apply Itoa_no_CR. lia. }
  { rewrite string_of_list_ascii_of_string. apply ParseInt_Itoa. lia. }
  { unfold pending. simpl. by rewrite app_nil_r. }
  apply leaves_drained in Hl2; [|done]. subst r2.
  unfold readBulk, bind. rewrite HR.
  destruct (Z.ltb_spec (Z.of_nat k) 0); [lia|].
  destruct (Z.ltb_spec maxAlloc (Z.of_nat k)); [unfold maxAlloc in *; lia|].
  cbn [orb]. rewrite Nat2Z.id, bufio_Read_drained, length_replicate.
  rewrite take_ge, drop_ge by lia.
  unfold copy_into. rewrite drop_replicate.
  reflexivity.
Qed.

Lemma X5_witness :
  Read (newrESP (BULK :: B (Itoa (Z.of_nat 5)) ++ CR :: LF :: B "ab"))
  = Done (bulkV (string_of_list_ascii (B "ab" ++ replicate 3 NUL)), None)
         (mkrESP [] []).
Proof.
  apply (X5_Read_bulk_cut_short 5 (B "ab")).
  - simpl. lia.
  - unfold maxAlloc. lia.
  - apply Nat.leb_le. vm_compute. reflexivity.
Defined.

Lemma readArray_loop_cut_short (Rd : M (Value * option error)) vs :
  forall fuel i len acc,
  Forall (fun v => forall tl,
            Rd (mkrESP (Marshal v ++ tl) [])
            = Done (canon v, None) (mkrESP tl [])) vs ->
  Rd (mkrESP [] []) = Done (Value0, Some EOF) (mkrESP [] []) ->
  (length vs < fuel)%nat ->
  i + Z.of_nat (length vs) < len ->
  readArray_loop Rd fuel i len (arrayV acc) (mkrESP (flat_map Marshal vs) [])
  = Done (arrayV (acc ++ map canon vs), Some EOF) (mkrESP [] []).
Proof.
  induction vs as [|v vs IH]; intros fuel i len acc Hvs Hnil Hf Hlen;
    (destruct fuel as [|fuel]; [simpl in Hf; lia|]);
    cbn [readArray_loop];
    (destruct (Z.ltb_spec i len); [|simpl in Hlen; lia]); unfold bind.
  - cbn [flat_map]. rewrite Hnil. unfold ret. cbn [map].
    by rewrite app_nil_r.
  - apply Forall_cons in Hvs as [Hv Hvs].
    cbn [flat_map]. rewrite Hv.
    unfold set_array. cbn [typ str num bulk array arrayV].
    fold (arrayV (acc ++ [canon v])).
    rewrite IH; [|done|done|simpl in Hf; lia|simpl length in Hlen; lia].
    cbn [map]. by rewrite <- app_assoc.
Qed.

(** X6: an array that announces more elements than the input holds: [Read]
    returns the elements that were there, in an array value, together with
    [io.EOF]; [Aof.Read] takes that [io.EOF] for the end of the file and
    returns nil without calling the callback, so a request that was cut
    short at the end of the file is dropped without a word. *)
Theorem X6_array_cut_short (n : nat) (vs : list Value)
  (fn : Value -> Store -> option Store) (st : Store) :
  Forall (fun v => wire v = true) vs ->
  (length vs < n)%nat ->
  (length (ARRAY :: B (Itoa (Z.of_nat n)) ++ CR :: LF :: flat_map Marshal vs)
   <= defaultBufSize)%nat ->
  Z.of_nat n < 2 ^ 63 ->
  Read (newrESP (ARRAY :: B (Itoa (Z.of_nat n)) ++ CR :: LF ::
                 flat_map Marshal vs))
    = Done (arrayV (map canon vs), Some EOF) (mkrESP [] [])
  /\ Aof_Read (ARRAY :: B (Itoa (Z.of_nat n)) ++ CR :: LF ::
               flat_map Marshal vs) fn st
     = Done (st, None) (mkrESP [] []).
Proof.
  intros Hw Hn Hsz Hmax.
  set (file := ARRAY :: B (Itoa (Z.of_nat n)) ++ CR :: LF ::
               flat_map Marshal vs) in *.
  assert (HRead : Read (newrESP file)
                  = Done (arrayV (map canon vs), Some EOF) (mkrESP [] [])).
  { rewrite Read_fits by done. unfold Read.
    destruct (Read_fuel_marker (length (pending (mkrESP file [])))
                (mkrESP file []) ARRAY
                (B (Itoa (Z.of_nat n)) ++ CR :: LF :: flat_map Marshal vs))
      as (r1 & Hl1 & ->).
    { unfold pending. simpl. by rewrite app_nil_r. }
    apply leaves_drained in Hl1; [|done]. subst r1.
    change (Ascii.eqb ARRAY ARRAY) with true. cbv iota.
    destruct (readInteger_spec
                (mkrESP (B (Itoa (Z.of_nat n)) ++ CR :: LF ::
                         flat_map Marshal vs) [])
                (B (Itoa (Z.of_nat n))) LF (flat_map Marshal vs)
                (Z.of_nat n))
      as (k & r2 & HR & Hl2).
    { apply Itoa_no_CR. lia. }
    { rewrite string_of_list_ascii_of_string. apply ParseInt_Itoa. lia. }
    { unfold pending. simpl. by rewrite app_nil_r. }
    apply leaves_drained in Hl2; [|done]. subst r2.
    unfold readArray, bind. rewrite HR.
    change (set_array (mkValue "array" "" 0 "" []) []) with (arrayV []).
    assert (Hlen : length (pending (mkrESP file []))
                   = S (length (B (Itoa (Z.of_nat n)))
                        + (2 + length (flat_map Marshal vs)))).
    { unfold pending, file. cbn [buf rd]. rewrite app_nil_r.
      cbn [length]. rewrite length_app. cbn [length]. lia. }
    assert (Hfile : length file = length (pending (mkrESP file [])))
      by (unfold pending; cbn [buf rd]; by rewrite app_nil_r).
    unfold defaultBufSize in Hsz.
    pose proof (flat_map_Marshal_length_count vs Hw) as Hcount.
    rewrite readArray_loop_cut_short; [reflexivity| | |lia|lia].
    - rewrite Forall_forall in Hw. apply Forall_forall. intros x Hx tl.
      pose proof (flat_map_Marshal_length_elem vs x Hx).
      apply Read_fuel_Marshal; [by apply Hw|lia|unfold maxAlloc; lia].
    - rewrite Hlen. apply Read_fuel_EOF. reflexivity. }
  split; [exact HRead|].
  unfold Aof_Read. cbn [Aof_Read_loop]. unfold bind. by rewrite HRead.
Qed.

Lemma X6_witness :
  Read (newrESP (ARRAY :: B (Itoa (Z.of_nat 3)) ++ CR :: LF ::
                 flat_map Marshal [bulkV "SET"; bulkV "k"]))
    = Done (arrayV (map canon [bulkV "SET"; bulkV "k"]), Some EOF)
           (mkrESP [] [])
  /\ Aof_Read (ARRAY :: B (Itoa (Z.of_nat 3)) ++ CR :: LF ::
               flat_map Marshal [bulkV "SET"; bulkV "k"])
              (fun _ _ => None) empty_Store
     = Done (empty_Store, None) (mkrESP [] []).
Proof.
  apply (X6_array_cut_short 3 [bulkV "SET"; bulkV "k"]).
  - repeat constructor.
  - simpl. lia.
  - apply Nat.leb_le. vm_compute. reflexivity.
  - lia.
Defined.

(** X7: after the marker ['$'] and a length line that parses to a negative
    number, [Read] panics ([make([]byte, len)] with a negative [len]);
    the encoding of the null value, [$-1\r\n], is such an input. *)
Theorem X7_Read_negative_bulk_panics (r : rESP) (line rest : bytes)
  (len : Z) :
  ParseInt (string_of_list_ascii line) = (len, None) ->
  len < 0 ->
  pending r = BULK :: line ++ CR :: LF :: rest ->
  Read r = Panic.
Proof.
  intros Hparse Hneg Hp. unfold Read.
  assert (Hl : CR ∉ line).
  { apply ParseInt_ok_no_CR in Hparse.
    by rewrite list_ascii_of_string_of_list_ascii in Hparse. }
  destruct (Read_fuel_marker (length (pending r)) r _ _ Hp)
    as (r1 & Hl1 & ->).
  change (Ascii.eqb BULK ARRAY) with false.
  change (Ascii.eqb BULK BULK) with true. cbv iota.
  apply (readBulk_negative r1 line LF rest len Hl Hparse Hneg).
  apply Hl1.
Qed.

Lemma X7_witness : Read (newrESP (Marshal nullV ++ B "*1")) = Panic.
Proof.
  apply (X7_Read_negative_bulk_panics (newrESP (Marshal nullV ++ B "*1"))
           (B "-1") (B "*1") (-1)).
  - reflexivity.
  - lia.
  - reflexivity.
Defined.

(** X8: a [Read] that returns without error has consumed at least one
    byte, and a [Read] that returns an error has put nothing back: the
    loops of [readArray] and of [Aof.Read] cannot go round without end on
    a finite input. *)
Theorem X8_Read_consumes (r r' : rESP) (v : Value) (e : option error) :
  Read r = Done (v, e) r' ->
  (length (pending r') <= length (pending r))%nat
  /\ (e = None -> (length (pending r') < length (pending r))%nat).
Proof.
  intros H. pose proof (Read_advances r) as Ha. rewrite H in Ha.
  unfold advances, size in Ha. destruct e as [e|]; split; try lia.
  discriminate.
Qed.

Lemma X8_witness :
  (length (pending (mkrESP (B "x") []))
   <= length (pending (newrESP (Marshal (bulkV "a") ++ B "x"))))%nat
  /\ (@None error = None ->
      (length (pending (mkrESP (B "x") []))
       < length (pending (newrESP (Marshal (bulkV "a") ++ B "x"))))%nat).
Proof.
  apply (X8_Read_consumes (newrESP (Marshal (bulkV "a") ++ B "x"))
           (mkrESP (B "x") []) (bulkV "a") None).
  reflexivity.
Defined.

(** * Further properties of the handlers *)

Section MoreHandlerFacts.

Variable range : gmap string string -> list (string * string).

Lemma calls_app cs1 cs2 st :
  calls range (cs1 ++ cs2) st = calls range cs2 (calls range cs1 st).
Proof. unfold calls. apply foldl_app. Qed.

Lemma calls_cons c cs st :
  calls range (c :: cs) st = calls range cs (call range c st).
Proof. reflexivity. Qed.

Lemma call_read_only name args st :
  name <> "SET" -> name <> "HSET" -> call range (name, args) st = st.
Proof.
  intros Hs Hh. unfold call. cbn [fst snd].
  destruct (Handlers range !! name) as [h|] eqn:Hl; [|done].
  apply Handlers_lookup in Hl
    as [[_ ->]|[[? _]|[[_ ->]|[[? _]|[[_ ->]|[_ ->]]]]]]; try done.
  - unfold ping. by case_match.
  - unfold get. by repeat case_match.
  - unfold hget. by repeat case_match.
  - unfold hgetall. by repeat case_match.
Qed.

(** X9: only [SET] and [HSET] write: a history of handler calls under
    any other names ([PING], [GET], [HGET], [HGETALL], names that
    [Handlers] does not have), with any arguments, leaves the store as it
    was. *)
Theorem X9_only_SET_and_HSET_write (cs : list (string * list Value))
  (st : Store) :
  Forall (fun c => c.1 <> "SET" /\ c.1 <> "HSET") cs ->
  calls range cs st = st.
Proof.
  intros H. revert st.
  induction H as [|[name args] cs [Hs Hh] _ IH]; intros st; [done|].
  rewrite calls_cons, call_read_only by done. apply IH.
Qed.

Lemma call_SET k v st :
  SETs (call range ("SET", [bulkV k; bulkV v]) st) !! k = Some v.
Proof.
  unfold call. cbn [fst snd]. rewrite Handlers_SET. apply lookup_insert_eq.
Qed.

(** X10: last write wins.  After any history that holds a [SET k v] and,
    later, no other [SET] under [k], [GET k] returns the bulk value [v],
    whatever the store was at the start and whatever was written under
    [k] before. *)
Theorem X10_GET_returns_last_SET (k v : string)
  (before after : list (string * list Value)) (st : Store) :
  Forall (fun c => ~ writes_key k c) after ->
  (get [bulkV k]
     (calls range (before ++ ("SET", [bulkV k; bulkV v]) :: after) st)).1
  = bulkV v.
Proof.
  intros Hafter. rewrite calls_app, calls_cons.
  unfold get. cbn [length Nat.eqb negb].
  change (bulk (arg [bulkV k] 0)) with k.
  rewrite calls_SETs_other by done. by rewrite call_SET.
Qed.

Lemma call_SETs_not_SET name args st :
  name <> "SET" -> SETs (call range (name, args) st) = SETs st.
Proof.
  intros Hs. unfold call. cbn [fst snd].
  destruct (Handlers range !! name) as [h|] eqn:Hl; [|done].
  apply Handlers_lookup in Hl
    as [[_ ->]|[[? _]|[[_ ->]|[[_ ->]|[[_ ->]|[_ ->]]]]]]; try done.
  - unfold ping. by case_match.
  - unfold get. by repeat case_match.
  - unfold hset. by repeat case_match.
  - unfold hget. by repeat case_match.
  - unfold hgetall. by repeat case_match.
Qed.

Lemma call_HSETs_not_HSET name args st :
  name <> "HSET" -> HSETs (call range (name, args) st) = HSETs st.
Proof.
  intros Hs. unfold call. cbn [fst snd].
  destruct (Handlers range !! name) as [h|] eqn:Hl; [|done].
  apply Handlers_lookup in Hl
    as [[_ ->]|[[_ ->]|[[_ ->]|[[? _]|[[_ ->]|[_ ->]]]]]]; try done.
  - unfold ping. by case_match.
  - unfold set. by repeat case_match.
  - unfold get. by repeat case_match.
  - unfold hget. by repeat case_match.
  - unfold hgetall. by repeat case_match.
Qed.

(** X11: the two maps are apart.  A history without [SET] leaves the flat
    map [SETs] as it was, so no [HSET] changes what a [GET] returns; a
    history without [HSET] leaves [HSETs] as it was, so no [SET] changes
    what [HGET] and [HGETALL] return. *)
Theorem X11_flat_and_hash_maps_apart (cs1 cs2 : list (string * list Value))
  (st : Store) :
  Forall (fun c => c.1 <> "SET") cs1 ->
  Forall (fun c => c.1 <> "HSET") cs2 ->
  SETs (calls range cs1 st) = SETs st
  /\ HSETs (calls range cs2 st) = HSETs st.
Proof.
  intros H1 H2. split.
  - clear H2. revert st.
    induction H1 as [|[name args] cs Hc _ IH]; intros st; [done|].
    rewrite calls_cons, IH. by apply call_SETs_not_SET.
  - clear H1. revert st.
    induction H2 as [|[name args] cs Hc _ IH]; intros st; [done|].
    rewrite calls_cons, IH. by apply call_HSETs_not_HSET.
Qed.

Lemma hset_hash_other h f v h' st :
  h' <> h ->
  HSETs (hset [bulkV h; bulkV f; bulkV v] st).2 !! h' = HSETs st !! h'.
Proof.
  intros Hne. unfold hset. simpl.
  destruct (HSETs st !! h) as [m|] eqn:Hm; simpl.
  - by rewrite lookup_insert_ne.
  - by rewrite !lookup_insert_ne.
Qed.

Lemma hset_field h f v h' f' st :
  default ∅ (HSETs (hset [bulkV h; bulkV f; bulkV v] st).2 !! h') !! f'
  = if decide (h' = h /\ f' = f) then Some v
    else default ∅ (HSETs st !! h') !! f'.
Proof.
  destruct (decide (h' = h)) as [->|Hh].
  - rewrite hset_hash. cbn [default].
    destruct (decide (f' = f)) as [->|Hf].
    + rewrite decide_True by done. apply lookup_insert_eq.
    + rewrite decide_False by tauto. by apply lookup_insert_ne.
  - rewrite hset_hash_other by done. by rewrite decide_False by tauto.
Qed.

(** X12: [HSET h f v] changes the field it writes and no other: [HGET] of
    any other field of the same hash, and of any field of another hash,
    returns what it returned before. *)
Theorem X12_HSET_other_fields (h f v h' f' : string) (st : Store) :
  ~ (h' = h /\ f' = f) ->
  (hget [bulkV h'; bulkV f'] (hset [bulkV h; bulkV f; bulkV v] st).2).1
  = (hget [bulkV h'; bulkV f'] st).1.
Proof.
  intros Hne. unfold hget. cbn [length Nat.eqb negb].
  change (bulk (arg [bulkV h'; bulkV f'] 0)) with h'.
  change (bulk (arg [bulkV h'; bulkV f'] 1)) with f'.
  rewrite hset_field, decide_False by done.
  by destruct (default ∅ (HSETs st !! h') !! f').
Qed.

End MoreHandlerFacts.

Lemma X9_witness :
  calls map_to_list [("GET", [bulkV "k"]); ("PING", []); ("DEL", [bulkV "k"])]
        (set [bulkV "k"; bulkV "v"] empty_Store).2
  = (set [bulkV "k"; bulkV "v"] empty_Store).2.
Proof.
  apply (X9_only_SET_and_HSET_write map_to_list).
  repeat constructor; discriminate.
Defined.

Lemma X10_witness :
  (get [bulkV "k"]
     (calls map_to_list
        ([("SET", [bulkV "k"; bulkV "old"])]
         ++ ("SET", [bulkV "k"; bulkV "new"])
            :: [("SET", [bulkV "other"; bulkV "x"]); ("GET", [bulkV "k"])])
        empty_Store)).1
  = bulkV "new".
Proof.
  apply (X10_GET_returns_last_SET map_to_list "k" "new"
           [("SET", [bulkV "k"; bulkV "old"])]
           [("SET", [bulkV "other"; bulkV "x"]); ("GET", [bulkV "k"])]).
  repeat constructor; unfold writes_key; cbn; intros (? & ? & ?);
    discriminate.
Defined.

Lemma X11_witness :
  SETs (calls map_to_list [("HSET", [bulkV "h"; bulkV "f"; bulkV "v"])]
          empty_Store) = SETs empty_Store
  /\ HSETs (calls map_to_list [("SET", [bulkV "k"; bulkV "v"])] empty_Store)
     = HSETs empty_Store.
Proof.
  apply (X11_flat_and_hash_maps_apart map_to_list).
  - repeat constructor; discriminate.
  - repeat constructor; discriminate.
Defined.

Lemma X12_witness :
  (hget [bulkV "h"; bulkV "g"]
        (hset [bulkV "h"; bulkV "f"; bulkV "v"]
              (hset [bulkV "h"; bulkV "g"; bulkV "w"] empty_Store).2).2).1
  = (hget [bulkV "h"; bulkV "g"]
          (hset [bulkV "h"; bulkV "g"; bulkV "w"] empty_Store).2).1.
Proof.
  apply (X12_HSET_other_fields "h" "f" "v" "h" "g").
  intros [_ H]. discriminate.
Defined.

Section MoreHashFacts.

Variable range : gmap string string -> list (string * string).
Hypothesis range_entries : forall m, range m ≡ₚ map_to_list m.

(** X13: [HGETALL h] on a hash that is not there returns the null value;
    on a hash that is there it returns an array of twice as many bulk
    strings as the hash has fields: its field/value pairs, each field
    once with the value it now has, every field followed at once by its
    value, the pairs in the order of the map iteration. *)
Theorem X13_HGETALL_lists_the_hash (h : string) (st : Store) :
  (HSETs st !! h = None -> hgetall range [bulkV h] st = (nullV, st))
  /\ (forall m : gmap string string,
        HSETs st !! h = Some m ->
        exists ps,
          hgetall range [bulkV h] st = (arrayV (alternating ps), st)
          /\ length (alternating ps) = (2 * base.size m)%nat
          /\ NoDup ps.*1
          /\ forall f v, (f, v) ∈ ps <-> m !! f = Some v).
Proof.
  unfold hgetall. cbn [length Nat.eqb negb].
  change (bulk (arg [bulkV h] 0)) with h.
  split; [by intros ->|]. intros m ->.
  exists (range m). rewrite hgetall_values. split; [done|].
  split; [|split].
  - by rewrite alternating_length, range_entries, length_map_to_list.
  - rewrite range_entries. apply NoDup_fst_map_to_list.
  - intros f v. rewrite range_entries. apply elem_of_map_to_list.
Qed.

End MoreHashFacts.

Lemma X13_witness :
  exists ps,
    hgetall map_to_list [bulkV "h"]
      (hset_all "h" [("f", "old"); ("g", "w"); ("f", "new")] empty_Store)
    = (arrayV (alternating ps),
       hset_all "h" [("f", "old"); ("g", "w"); ("f", "new")] empty_Store)
    /\ length (alternating ps) = 4%nat
    /\ ((("f", "new") : string * string) ∈ ps).
Proof.
  destruct (X13_HGETALL_lists_the_hash map_to_list (fun m => reflexivity _)
              "h" (hset_all "h" [("f", "old"); ("g", "w"); ("f", "new")]
                     empty_Store)) as [_ H].
  destruct (H (<["f" := "new"]> (<["g" := "w"]> (<["f" := "old"]> ∅))))
    as (ps & H1 & H2 & _ & H3); [reflexivity|].
  exists ps. split; [exact H1|]. split; [exact H2|].
  apply H3. reflexivity.
Defined.

Section Persistence.

Variable range : gmap string string -> list (string * string).






End Persistence.


(** * Further properties of the request loop *)

Lemma Marshal_nonempty v :
  typ v = "array" \/ typ v = "bulk" \/ typ v = "string" \/ typ v = "null"
  \/ typ v = "error" ->
  Marshal v <> [].
Proof.
  destruct v as [t s n b a]. cbn [typ].
  intros [->|[->|[->|[->| ->]]]]; discriminate.
Qed.

Lemma upper_byte_idem c : upper_byte (upper_byte c) = upper_byte c.
Proof. destruct c as [[] [] [] [] [] [] [] []]; reflexivity. Qed.

Lemma ToUpper_ascii_idem s : ToUpper_ascii (ToUpper_ascii s) = ToUpper_ascii s.
Proof.
  induction s as [|c s IH]; [done|]. cbn. by rewrite upper_byte_idem, IH.
Qed.

Section MoreServerFacts.

Variable range : gmap string string -> list (string * string).
Variable ToUpper : string -> string.

Lemma handler_reply_typ name h args st :
  Handlers range !! name = Some h ->
  typ (h args st).1 = "array" \/ typ (h args st).1 = "bulk"
  \/ typ (h args st).1 = "string" \/ typ (h args st).1 = "null"
  \/ typ (h args st).1 = "error".
Proof.
  intros Hl. apply Handlers_lookup in Hl
    as [[_ ->]|[[_ ->]|[[_ ->]|[[_ ->]|[[_ ->]|[_ ->]]]]]].
  - unfold ping. case_match; cbn; tauto.
  - unfold set. case_match; cbn; tauto.
  - unfold get. repeat case_match; cbn; tauto.
  - unfold hset. case_match; cbn; tauto.
  - unfold hget. repeat case_match; cbn; tauto.
  - unfold hgetall. repeat case_match; cbn; tauto.
Qed.

(** X15: every decoded value that is an array with at least one element
    gets exactly one reply, and the reply has a non-empty encoding, known
    command or not, right argument count or not; a value that is not an
    array, or an array without elements, gets no reply and changes
    nothing. *)
Theorem X15_one_reply_per_request (value : Value) (s : Server) :
  (typ value = "array" -> array value <> [] ->
   exists reply,
     conn (serve range ToUpper value s) = conn s ++ [reply]
     /\ Marshal reply <> [])
  /\ (typ value <> "array" \/ array value = [] ->
      serve range ToUpper value s = s).
Proof.
  split.
  - intros Ht Ha. rewrite serve_dispatch by done. cbv zeta.
    destruct (Handlers range !! _) as [h|] eqn:Hh.
    + pose proof (handler_reply_typ _ h (drop 1 (array value))
                    (store (if String.eqb (ToUpper (bulk (arg (array value) 0))) "SET"
                               || String.eqb (ToUpper (bulk (arg (array value) 0))) "HSET"
                            then Aof_Write value s else s)) Hh) as Hty.
      destruct (h _ _) as [result st'] eqn:Hr. cbn [fst] in Hty.
      exists result. split; [by case_match|].
      by apply Marshal_nonempty.
    + exists (stringV ""). split; [done|discriminate].
  - intros [Ht|Ha]; unfold serve.
    + apply String.eqb_neq in Ht. by rewrite Ht.
    + rewrite Ha. cbn. by case_match.
Qed.



(** X20: a request whose first word upper-cases to [PING] is answered
    with the simple string [PONG] when it has no other word, and else
    with its second word as a simple string (further words are ignored);
    the store and the file are left as they were. *)
Theorem X20_PING (w : string) (args : list string) (s : Server) :
  ToUpper w = "PING" ->
  serve range ToUpper (request (w :: args)) s
  = mkServer (store s) (aof s)
      (conn s ++ [stringV (match args with [] => "PONG" | a :: _ => a end)]).
Proof.
  intros Hw. rewrite serve_dispatch by done.
  change (bulk (arg (array (request (w :: args))) 0)) with w.
  change (drop 1 (array (request (w :: args)))) with (map bulkV args).
  cbv zeta. rewrite Hw.
  change (Handlers range !! "PING") with (Some ping).
  cbn [String.eqb Ascii.eqb Bool.eqb orb andb]. unfold ping.
  by destruct args.
Qed.

(** X19: at start-up, a file whose first byte is neither ['*'] nor ['$']
    makes the process panic: [Read] returns the zero value for it without
    an error, and the callback of [main] indexes [value.array[0]] with no
    check of the length (the request loop has that check, the callback
    has not). *)
Theorem X19_startup_panics_on_other_marker (c : byte) (rest : bytes) :
  c <> ARRAY ->
  c <> BULK ->
  startup range ToUpper (c :: rest) = Panic.
Proof.
  intros Ha Hb. unfold startup, Aof_Read.
  cbn [Aof_Read_loop]. unfold bind at 1. unfold Read.
  destruct (Read_fuel_marker (length (pending (newrESP (c :: rest))))
              (newrESP (c :: rest)) c rest) as (r1 & _ & ->); [done|].
  destruct (Ascii.eqb_spec c ARRAY); [done|].
  destruct (Ascii.eqb_spec c BULK); [done|].
  reflexivity.
Qed.

End MoreServerFacts.

(** X17: command names are case-insensitive on ASCII letters.  The store
    and the replies after a request are those after the same request
    with its first word in upper case (the file may differ: it gets the
    request as it was sent). *)
Theorem X17_command_case (w : string) (args : list string) (s : Server) :
  store (serve map_to_list ToUpper_ascii (request (w :: args)) s)
  = store (serve map_to_list ToUpper_ascii
             (request (ToUpper_ascii w :: args)) s)
  /\ conn (serve map_to_list ToUpper_ascii (request (w :: args)) s)
     = conn (serve map_to_list ToUpper_ascii
               (request (ToUpper_ascii w :: args)) s).
Proof.
  rewrite !serve_dispatch by done.
  change (bulk (arg (array (request (w :: args))) 0)) with w.
  change (bulk (arg (array (request (ToUpper_ascii w :: args))) 0))
    with (ToUpper_ascii w).
  change (drop 1 (array (request (w :: args)))) with (map bulkV args).
  change (drop 1 (array (request (ToUpper_ascii w :: args))))
    with (map bulkV args).
  cbv zeta. rewrite ToUpper_ascii_idem.
  destruct (Handlers map_to_list !! ToUpper_ascii w) as [h|]; [|done].
  destruct (String.eqb (ToUpper_ascii w) "SET"
            || String.eqb (ToUpper_ascii w) "HSET");
    cbn [store Aof_Write]; by destruct (h _ _).
Qed.

Lemma X15_witness :
  (exists reply,
     conn (serve map_to_list ToUpper_ascii (request ["NOPE"]) fresh)
     = conn fresh ++ [reply]
     /\ Marshal reply <> [])
  /\ serve map_to_list ToUpper_ascii (bulkV "PING") fresh = fresh.
Proof.
  destruct (X15_one_reply_per_request map_to_list ToUpper_ascii
              (request ["NOPE"]) fresh) as [H1 _].
  destruct (X15_one_reply_per_request map_to_list ToUpper_ascii
              (bulkV "PING") fresh) as [_ H2].
  split.
  - apply H1; [reflexivity | discriminate].
  - apply H2. left. discriminate.
Defined.

Lemma X18_witness :
  startup map_to_list ToUpper_ascii
    (aof (serve_all map_to_list ToUpper_ascii
            (map request [["SET"; "k"; "v"]; ["GET"; "k"];
                          ["hset"; "h"; "f"; "v"]; ["SET"; "k"]])
            fresh))
  = Done (store (serve_all map_to_list ToUpper_ascii
                   (map request [["SET"; "k"; "v"]; ["GET"; "k"];
                                 ["hset"; "h"; "f"; "v"]; ["SET"; "k"]])
                   fresh), None)
         (mkrESP [] []).
Proof.
  apply (replay_small_log map_to_list ToUpper_ascii
           [["SET"; "k"; "v"]; ["GET"; "k"]; ["hset"; "h"; "f"; "v"];
            ["SET"; "k"]]).
  apply Nat.leb_le. vm_compute. reflexivity.
Defined.

Lemma X19_witness :
  startup map_to_list ToUpper_ascii (LF :: Marshal (request ["SET"; "k"; "v"]))
  = Panic.
Proof.
  apply (X19_startup_panics_on_other_marker map_to_list ToUpper_ascii).
  - discriminate.
  - discriminate.
Defined.

Lemma X20_witness :
  serve map_to_list ToUpper_ascii (request ["ping"]) fresh
  = mkServer (store fresh) (aof fresh) (conn fresh ++ [stringV "PONG"]).
Proof.
  apply (X20_PING map_to_list ToUpper_ascii "ping" [] fresh).
  reflexivity.
Defined.

(** * Further properties of the encoder and of [Aof.Read] *)

(** X21: the encoding is unambiguous on what requests are made of: two
    values of bulk strings and arrays that have the same encoding, of at
    most 4096 bytes, have the same variant, content and order of
    elements. *)
Theorem X21_Marshal_injective (v w : Value) :
  wire v = true ->
  wire w = true ->
  (length (Marshal v) <= defaultBufSize)%nat ->
  Marshal v = Marshal w ->
  equivalent v w.
Proof.
  intros Hv Hw Hsz Heq.
  pose proof (Read_Marshal_drained v [] Hv) as Rv.
  pose proof (Read_Marshal_drained w [] Hw) as Rw.
  rewrite app_nil_r in Rv, Rw. rewrite <- Heq in Rw.
  specialize (Rv Hsz). specialize (Rw Hsz).
  unfold equivalent. congruence.
Qed.

Lemma X21_witness :
  equivalent (mkValue "bulk" "left over" 7 "k" [request ["x"]]) (bulkV "k").
Proof.
  apply X21_Marshal_injective.
  - reflexivity.
  - reflexivity.
  - apply Nat.leb_le. vm_compute. reflexivity.
  - reflexivity.
Defined.

Lemma Aof_Read_loop_values (f : Value -> Store -> Store) vs :
  forall fuel st,
  Forall (fun v => wire v = true) vs ->
  (length vs < fuel)%nat ->
  (length (flat_map Marshal vs) <= defaultBufSize)%nat ->
  Aof_Read_loop fuel (fun v st => Some (f v st)) st
    (mkrESP (flat_map Marshal vs) [])
  = Done (foldl (fun st v => f (canon v) st) st vs, None) (mkrESP [] []).
Proof.
  induction vs as [|v vs IH]; intros fuel st Hw Hf Hsz;
    (destruct fuel as [|fuel]; [simpl in Hf; lia|]).
  - reflexivity.
  - apply Forall_cons in Hw as [Hv Hw]. cbn [flat_map] in *.
    cbn [Aof_Read_loop]. unfold bind.
    rewrite Read_Marshal_drained by done.
    cbn [foldl]. apply IH; [done|simpl in Hf; lia|].
    rewrite length_app in Hsz. lia.
Qed.

(** X22: [Aof.Read] on a file that is the encodings of values of bulk
    strings and arrays, one after the other and 4096 bytes at most in
    all, calls the callback once for each value, in the order of the
    file, with the value that was encoded, and returns nil at the end of
    the file. *)
Theorem X22_Aof_Read_in_order (f : Value -> Store -> Store)
  (vs : list Value) (st : Store) :
  Forall (fun v => wire v = true) vs ->
  (length (flat_map Marshal vs) <= defaultBufSize)%nat ->
  Aof_Read (flat_map Marshal vs) (fun v st => Some (f v st)) st
  = Done (foldl (fun st v => f (canon v) st) st vs, None) (mkrESP [] []).
Proof.
  intros Hw Hsz. unfold Aof_Read. rewrite Aof_Read_loop_fits by done.
  apply Aof_Read_loop_values; [done| |done].
  pose proof (flat_map_Marshal_length_count vs Hw). lia.
Qed.

Lemma X22_witness :
  Aof_Read (flat_map Marshal [request ["a"]; request ["b"; "c"]])
    (fun v st => Some (mkStore (<[bulk (arg (array v) 0) := "seen"]> (SETs st))
                               (HSETs st)))
    empty_Store
  = Done (foldl (fun st v =>
                   mkStore (<[bulk (arg (array (canon v)) 0) := "seen"]>
                              (SETs st)) (HSETs st))
                empty_Store [request ["a"]; request ["b"; "c"]], None)
         (mkrESP [] []).
Proof.
  apply (X22_Aof_Read_in_order
           (fun v st => mkStore (<[bulk (arg (array v) 0) := "seen"]> (SETs st))
                                (HSETs st))
           [request ["a"]; request ["b"; "c"]] empty_Store).
  - repeat constructor.
  - apply Nat.leb_le. vm_compute. reflexivity.
Defined.
